(** * regclient: tag cleanup of regsync and the descriptor identity model

    A shallow embedding of [cmd/regsync/cleanup.go] (module [Regsync]) and of
    the parts of [types/descriptor] that its test file exercises (module
    [Descriptor]), with the properties stated about them. *)

From Stdlib Require Import ZArith Ascii.
From stdpp Require Import base strings list gmap.

(** Go's [(T, error)] results. *)
Inductive Result (E A : Type) : Type :=
| Ok (a : A)
| Err (e : E).
Arguments Ok {E A} a.
Arguments Err {E A} e.

(** * cmd/regsync/cleanup.go *)
Module Regsync.

(** Configuration read by the cleanup.  Only the fields that [cleanupTags]
    reads are kept.  The declaration of the tag filter set is not in
    cleanup.go; [SemverRange] is a string as in the specification, and
    [len(...) > 0] on it is non-emptiness. *)
Record ConfigTags : Type := {
  Allow : list string;
  Deny : list string;
  SemverRange : string;
}.

Record ConfigSync : Type := {
  Target : string;
  Tags : ConfigTags;
  TagSets : list ConfigTags;
  CleanupTagsExclude : list string;
}.

Record Config : Type := { Sync : list ConfigSync }.

(** [rootOpts]: the configuration; the registry client [opts.rc] is part of
    [Externals] below, and the logger [opts.log] has no effect on results. *)
Record rootOpts : Type := { conf : Config }.

(** The collaborators of cleanup.go that live outside the file: the [ref]
    package, the registry client, Go's [regexp], and [filterTagList] of the
    same package.  [World] is the state the registry calls act on, together
    with the caller's context: [ctxDone w] is what the [select] on
    [ctx.Done()] observes in state [w]. *)
Class Externals : Type := {
  ExtErr : Type;
  Ref : Type;
  ref_New : string → Result ExtErr Ref;
  CommonName : Ref → string;
  SetTag : Ref → string → Ref;
  World : Type;
  ctxDone : World → bool;
  TagListT : Type;
  TagList : World → Ref → World * Result ExtErr TagListT;
  GetTags : TagListT → Result ExtErr (list string);
  TagDelete : World → Ref → World * option ExtErr;
  Regexp : Type;
  Compile : string → Result ExtErr Regexp;
  MatchString : Regexp → string → bool;
  filterTagList : ConfigTags → list string → Result ExtErr (list string);
}.

(** The error values [cleanupTags] can return. *)
#[warnings="-register-all"]
Inductive error `{Externals} : Type :=
| ErrCanceled
| External (e : ExtErr)
| InvalidExclusionPattern (pattern : string) (err : ExtErr)
| FailedToDeleteTag (target tag : string) (err : ExtErr)
| Join (errs : list error).

(** What one invocation leaves behind: the final state, the log of the
    [TagDelete] calls issued (the tag set on the target reference and the
    answer, in order), and the value returned. *)
Record Outcome `{Externals} : Type := {
  world : World;
  issued : list (string * option ExtErr);
  result : option error;
}.

Section Cleanup.
Context `{Ext : Externals}.

(** [errors.Join]: nil when there is nothing to join. *)
Definition errors_Join (errs : list error) : option error :=
  match errs with
  | [] => None
  | _ :: _ => Some (Join errs)
  end.

(** cleanup.go, lines 24-41. *)
Fixpoint matchesExclusionPattern (tag : string) (patterns : list string)
  : Result error (bool * string) :=
  match patterns with
  | [] => Ok (false, "")
  | pattern :: rest =>
      match Compile pattern with
      | Err err => Err (InvalidExclusionPattern pattern err)
      | Ok exp =>
          if MatchString exp tag then Ok (true, pattern)
          else matchesExclusionPattern tag rest
      end
  end.

(** cleanup.go, lines 44-52. *)
Definition findSyncEntriesForTarget (opts : rootOpts) (tgt : string)
  : list ConfigSync :=
  filter (λ sync, Target sync = tgt) (Sync (conf opts)).

(** Lines 96-99: the filter sets of one entry. *)
Definition setsOf (syncEntry : ConfigSync) : list ConfigTags :=
  let sets := TagSets syncEntry in
  if bool_decide (0 < length (Allow (Tags syncEntry)))
     || bool_decide (0 < length (Deny (Tags syncEntry)))
     || bool_decide (0 < String.length (SemverRange (Tags syncEntry)))
  then sets ++ [Tags syncEntry]
  else sets.

(** Lines 115-119: append the tags not yet in the wanted list. *)
Fixpoint addUnique (wantedTags filteredCur : list string) : list string :=
  match filteredCur with
  | [] => wantedTags
  | tag :: rest =>
      if bool_decide (tag ∈ wantedTags) then addUnique wantedTags rest
      else addUnique (wantedTags ++ [tag]) rest
  end.

(** Lines 103-120: the loop over the sets of one entry. *)
Fixpoint wantedOfSets (sets : list ConfigTags) (tTagsList wantedTags : list string)
  : Result error (list string) :=
  match sets with
  | [] => Ok wantedTags
  | set :: rest =>
      match filterTagList set tTagsList with
      | Err err => Err (External err)
      | Ok filteredCur =>
          wantedOfSets rest tTagsList (addUnique wantedTags filteredCur)
      end
  end.

(** Lines 95-122: the loop over the entries, on [wantedTags] and
    [allSetsEmpty]. *)
Fixpoint wantedOfEntries (syncEntries : list ConfigSync) (tTagsList : list string)
    (wantedTags : list string) (allSetsEmpty : bool)
  : Result error (list string * bool) :=
  match syncEntries with
  | [] => Ok (wantedTags, allSetsEmpty)
  | syncEntry :: rest =>
      let sets := setsOf syncEntry in
      if bool_decide (0 < length sets) then
        match wantedOfSets sets tTagsList wantedTags with
        | Err err => Err err
        | Ok wantedTags' => wantedOfEntries rest tTagsList wantedTags' false
        end
      else wantedOfEntries rest tTagsList wantedTags allSetsEmpty
  end.

(** Lines 91-127: the wanted tags. *)
Definition computeWanted (syncEntries : list ConfigSync) (tTagsList : list string)
  : Result error (list string) :=
  match wantedOfEntries syncEntries tTagsList [] true with
  | Err err => Err err
  | Ok (wantedTags, allSetsEmpty) =>
      Ok (if allSetsEmpty then tTagsList else wantedTags)
  end.

(** Lines 130-133. *)
Definition allExclusionPatterns (syncEntries : list ConfigSync) : list string :=
  foldl (λ acc syncEntry, acc ++ CleanupTagsExclude syncEntry) [] syncEntries.

(** Lines 136-162: the tags to delete. *)
Fixpoint classify (wantedTags patterns : list string) (tTagsList : list string)
    (tagsToDelete : list string) : Result error (list string) :=
  match tTagsList with
  | [] => Ok tagsToDelete
  | tag :: rest =>
      if bool_decide (tag ∈ wantedTags) then
        classify wantedTags patterns rest tagsToDelete
      else
        match matchesExclusionPattern tag patterns with
        | Err err => Err err
        | Ok (excluded, _) =>
            if excluded then classify wantedTags patterns rest tagsToDelete
            else classify wantedTags patterns rest (tagsToDelete ++ [tag])
        end
  end.

(** Lines 165-199: the deletion loop, on [errs] and the call log. *)
Fixpoint deleteTags (tgtRef : Ref) (w : World) (errs : list error)
    (log : list (string * option ExtErr)) (tagsToDelete : list string) : Outcome :=
  match tagsToDelete with
  | [] => {| world := w; issued := log; result := errors_Join errs |}
  | tag :: rest =>
      if ctxDone w then
        {| world := w; issued := log;
           result := errors_Join (errs ++ [ErrCanceled]) |}
      else
        let tagRef := SetTag tgtRef tag in
        let '(w', r) := TagDelete w tagRef in
        match r with
        | Some err =>
            deleteTags tgtRef w'
              (errs ++ [FailedToDeleteTag (CommonName tgtRef) tag err])
              (log ++ [(tag, r)]) rest
        | None => deleteTags tgtRef w' errs (log ++ [(tag, r)]) rest
        end
  end.

(** Lines 58-162: everything before the deletions.  The result is the state
    after the tag listing and either the error returned early or the target
    reference with the tags scheduled for deletion. *)
Definition plan (opts : rootOpts) (w : World) (tgt : string)
  : World * Result error (Ref * list string) :=
  match ref_New tgt with
  | Err err => (w, Err (External err))
  | Ok tgtRef =>
      let '(w1, r) := TagList w tgtRef in
      match r with
      | Err err => (w1, Err (External err))
      | Ok tTags =>
          match GetTags tTags with
          | Err err => (w1, Err (External err))
          | Ok tTagsList =>
              let syncEntries := findSyncEntriesForTarget opts tgt in
              match computeWanted syncEntries tTagsList with
              | Err err => (w1, Err err)
              | Ok wantedTags =>
                  match classify wantedTags (allExclusionPatterns syncEntries)
                          tTagsList [] with
                  | Err err => (w1, Err err)
                  | Ok tagsToDelete => (w1, Ok (tgtRef, tagsToDelete))
                  end
              end
          end
      end
  end.

(** cleanup.go, lines 57-200.  The rule [s] is not read by the function. *)
Definition cleanupTags (opts : rootOpts) (w : World) (s : ConfigSync) (tgt : string)
  : Outcome :=
  match plan opts w tgt with
  | (w1, Err err) => {| world := w1; issued := []; result := Some err |}
  | (w1, Ok (tgtRef, tagsToDelete)) => deleteTags tgtRef w1 [] [] tagsToDelete
  end.

(** ** What the statements below are phrased with *)

(** The registry's answers to deleting [tags] one after the other from
    state [w], and the state this leaves. *)
Fixpoint answers (tgtRef : Ref) (w : World) (tags : list string)
  : list (string * option ExtErr) :=
  match tags with
  | [] => []
  | tag :: rest =>
      let '(w', r) := TagDelete w (SetTag tgtRef tag) in
      (tag, r) :: answers tgtRef w' rest
  end.

Fixpoint afterDeletes (tgtRef : Ref) (w : World) (tags : list string) : World :=
  match tags with
  | [] => w
  | tag :: rest => afterDeletes tgtRef (TagDelete w (SetTag tgtRef tag)).1 rest
  end.

(** The failures among a log of answers, as line 186 wraps them. *)
Definition failuresOf (tgtRef : Ref) (log : list (string * option ExtErr))
  : list error :=
  omap (λ a, FailedToDeleteTag (CommonName tgtRef) a.1 <$> a.2) log.

(** How many deletions are issued before the context is seen done. *)
Fixpoint issuedCount (tgtRef : Ref) (w : World) (tags : list string) : nat :=
  match tags with
  | [] => 0
  | tag :: rest =>
      if ctxDone w then 0
      else S (issuedCount tgtRef (TagDelete w (SetTag tgtRef tag)).1 rest)
  end.

(** The context is not seen done before any deletion of [tags]. *)
Definition neverCanceled (tgtRef : Ref) (w : World) (tags : list string) : Prop :=
  ∀ j, j < length tags → ctxDone (afterDeletes tgtRef w (take j tags)) = false.

(** The context is first seen done before deletion number [i] (from 0). *)
Definition canceledBefore (tgtRef : Ref) (w : World) (tags : list string)
    (i : nat) : Prop :=
  i < length tags
  ∧ (∀ j, j < i → ctxDone (afterDeletes tgtRef w (take j tags)) = false)
  ∧ ctxDone (afterDeletes tgtRef w (take i tags)) = true.

(** The listing stage succeeded: target parsed, tags listed. *)
Definition listed (w : World) (tgt : string) (tgtRef : Ref) (w1 : World)
    (tTagsList : list string) : Prop :=
  ref_New tgt = Ok tgtRef
  ∧ ∃ tTags, TagList w tgtRef = (w1, Ok tTags) ∧ GetTags tTags = Ok tTagsList.

(** An entry without filter sets: no tagSets and an empty top-level filter. *)
Definition noFilterSets (syncEntry : ConfigSync) : Prop :=
  TagSets syncEntry = [] ∧ Allow (Tags syncEntry) = []
  ∧ Deny (Tags syncEntry) = [] ∧ SemverRange (Tags syncEntry) = "".

(** The union of wanted tags in the words of the specification: every tag
    that survives some filter set of some entry. *)
Definition survivors (set : ConfigTags) (tTagsList : list string) : list string :=
  match filterTagList set tTagsList with
  | Ok filteredCur => filteredCur
  | Err _ => []
  end.

Definition unionWanted (syncEntries : list ConfigSync) (tTagsList : list string)
  : list string :=
  syncEntries ≫= (λ syncEntry, setsOf syncEntry ≫= (λ set, survivors set tTagsList)).

(** The exclusion patterns pooled from the entries, and whether a tag
    matches one of them. *)
Definition pooledExclusions (syncEntries : list ConfigSync) : list string :=
  syncEntries ≫= CleanupTagsExclude.

Definition matchesPattern (tag pattern : string) : bool :=
  match Compile pattern with
  | Ok exp => MatchString exp tag
  | Err _ => false
  end.

Definition excluded (patterns : list string) (tag : string) : bool :=
  existsb (matchesPattern tag) patterns.

(** The deletions the union rule alone prescribes: the listed tags outside
    the union that match no pooled exclusion pattern. *)
Definition deletionsByUnion (syncEntries : list ConfigSync)
    (tTagsList : list string) : list string :=
  filter (λ tag, ¬ (tag ∈ unionWanted syncEntries tTagsList)
                 ∧ excluded (pooledExclusions syncEntries) tag = false)
    tTagsList.

End Cleanup.

(** ** Configurations of the scenarios

    The configurations the statements and their instances refer to: the two
    rules of the union scenario, and rules without filters or with a
    malformed exclusion pattern. *)
Module Scenario.

Definition allowOnly (pattern : string) : ConfigTags :=
  {| Allow := [pattern]; Deny := []; SemverRange := "" |}.

Definition noTags : ConfigTags := {| Allow := []; Deny := []; SemverRange := "" |}.

(** Two rules on the target [repo:tag], one allowing [^stable$], the other
    [^latest$]. *)
Definition ruleA : ConfigSync :=
  {| Target := "repo:tag"; Tags := allowOnly "^stable$"; TagSets := [];
     CleanupTagsExclude := [] |}.

Definition ruleB : ConfigSync :=
  {| Target := "repo:tag"; Tags := allowOnly "^latest$"; TagSets := [];
     CleanupTagsExclude := [] |}.

Definition optsAB : rootOpts := {| conf := {| Sync := [ruleA; ruleB] |} |}.

(** A rule without any filter whose exclusion list holds a malformed
    pattern. *)
Definition ruleBare : ConfigSync :=
  {| Target := "repo:tag"; Tags := noTags; TagSets := [];
     CleanupTagsExclude := ["("] |}.

Definition optsBare : rootOpts := {| conf := {| Sync := [ruleBare] |} |}.

(** A rule without any filter and without exclusions. *)
Definition ruleNone : ConfigSync :=
  {| Target := "repo:tag"; Tags := noTags; TagSets := [];
     CleanupTagsExclude := [] |}.

Definition optsNone : rootOpts := {| conf := {| Sync := [ruleNone] |} |}.

(** A rule that keeps [stable] and whose first exclusion pattern is
    malformed. *)
Definition ruleBad : ConfigSync :=
  {| Target := "repo:tag"; Tags := allowOnly "^stable$"; TagSets := [];
     CleanupTagsExclude := ["("; "^old$"] |}.

Definition optsBad : rootOpts := {| conf := {| Sync := [ruleBad] |} |}.

End Scenario.

(** ** A small registry on which the cleanup can be run

    A stand-in for the collaborators, used to evaluate [cleanupTags] on
    the scenarios. *)
Module Fixture.

(** One repository: its tags, the tags whose deletion the registry refuses,
    the registry calls made so far, and the number of calls after which the
    caller's context is done. *)
Record Registry : Type := {
  repoTags : list string;
  refused : list string;
  calls : nat;
  deadline : option nat;
}.

Definition tick (r : Registry) : Registry :=
  {| repoTags := repoTags r; refused := refused r;
     calls := S (calls r); deadline := deadline r |}.

Definition done (r : Registry) : bool :=
  match deadline r with
  | Some n => bool_decide (n ≤ calls r)
  | None => false
  end.

Definition delete (r : Registry) (tagRef : string * string)
  : Registry * option string :=
  if bool_decide (tagRef.2 ∈ refused r) then (tick r, Some "denied")
  else
    (tick {| repoTags := filter (λ tag, tag ≠ tagRef.2) (repoTags r);
             refused := refused r; calls := calls r; deadline := deadline r |},
     None).

(** A stand-in for Go's [regexp], which is a library outside the
    repository: it knows the anchored literals [^tag$] and the malformed
    pattern [(], and agrees with [regexp] on them. *)
Definition compile (pattern : string) : Result string string :=
  if bool_decide (pattern = "(") then Err "missing closing )" else Ok pattern.

Definition matchString (exp tag : string) : bool :=
  bool_decide (exp = "^" +:+ tag +:+ "$").

Fixpoint compileAll (patterns : list string) : Result string (list string) :=
  match patterns with
  | [] => Ok []
  | pattern :: rest =>
      match compile pattern, compileAll rest with
      | Ok exp, Ok exps => Ok (exp :: exps)
      | Err err, _ | _, Err err => Err err
      end
  end.

(** Modelled from the spec: [filterTagList] (§4.4) is not among the sources.
    A tag is kept when it matches an [allow] pattern (or [allow] is empty)
    and no [deny] pattern; a pattern that does not compile fails the call.
    Semver ranges are left out: a non-empty range is answered with an
    error. *)
Definition filterTags (set : ConfigTags) (tags : list string)
  : Result string (list string) :=
  if bool_decide (SemverRange set = "") then
    match compileAll (Allow set), compileAll (Deny set) with
    | Ok allow, Ok deny =>
        Ok (filter (λ tag,
              (allow = [] ∨ existsb (λ exp, matchString exp tag) allow = true)
              ∧ existsb (λ exp, matchString exp tag) deny = false) tags)
    | Err err, _ | _, Err err => Err err
    end
  else Err "semver ranges are not supported".

Definition externals : Externals := {|
  ExtErr := string;
  Ref := string * string;
  ref_New := λ tgt, if bool_decide (tgt = "") then Err "empty reference"
                    else Ok (tgt, "");
  CommonName := fst;
  SetTag := λ r tag, (r.1, tag);
  World := Registry;
  ctxDone := done;
  TagListT := list string;
  TagList := λ r _, (tick r, Ok (repoTags r));
  GetTags := Ok;
  TagDelete := delete;
  Regexp := string;
  Compile := compile;
  MatchString := matchString;
  filterTagList := filterTags;
|}.

Definition registry (tags broken : list string) (limit : option nat) : Registry :=
  {| repoTags := tags; refused := broken; calls := 0; deadline := limit |}.

(** The target reference the fixture parses [repo:tag] into. *)
Definition tgtRef : string * string := ("repo:tag", "").

(** The registry refuses to delete [a], and the context is done after three
    calls: the listing and two deletions. *)
Definition regCancel : Registry := registry ["a"; "stable"; "b"; "c"] ["a"] (Some 3).

(** The registry refuses to delete [b]; the context is never done. *)
Definition regRefuse : Registry := registry ["a"; "stable"; "b"; "c"] ["b"] None.

(** The registry of the two-rule scenario. *)
Definition regAB : Registry := registry ["stable"; "latest"; "old"] [] None.

(** A registry holding the single tag [old]. *)
Definition regOld : Registry := registry ["old"] [] None.

(** A registry holding a wanted and an unwanted tag. *)
Definition regMixed : Registry := registry ["stable"; "old"] [] None.

(** Every tag is wanted, and the context is done from the start. *)
Definition regDone : Registry := registry ["stable"; "latest"] [] (Some 0).

End Fixture.

(** ** The deletion loop *)
Section DeletionLoop.
Context `{Ext : Externals}.
Implicit Types (tgtRef : Ref) (w : World) (tags : list string).

Lemma failuresOf_app tgtRef l1 l2 :
  failuresOf tgtRef (l1 ++ l2) = failuresOf tgtRef l1 ++ failuresOf tgtRef l2.
Proof. unfold failuresOf. apply omap_app. Qed.

Lemma answers_tags tgtRef w tags : (answers tgtRef w tags).*1 = tags.
Proof.
  revert w. induction tags as [|tag rest IH]; intros w; simpl; [done|].
  destruct (TagDelete w (SetTag tgtRef tag)) as [w' r]. simpl. by rewrite IH.
Qed.

Lemma issuedCount_le tgtRef w tags : issuedCount tgtRef w tags ≤ length tags.
Proof.
  revert w. induction tags as [|tag rest IH]; intros w; simpl; [lia|].
  destruct (ctxDone w); [lia|]. specialize (IH (TagDelete w (SetTag tgtRef tag)).1). lia.
Qed.

(** The loop in closed form: it issues the first [issuedCount] deletions and
    joins their failures, followed by [ErrCanceled] when it stopped early. *)
Lemma deleteTags_closed tgtRef tags : ∀ w errs log,
  deleteTags tgtRef w errs log tags =
    let n := issuedCount tgtRef w tags in
    let done := answers tgtRef w (take n tags) in
    {| world := afterDeletes tgtRef w (take n tags);
       issued := log ++ done;
       result := errors_Join
         (errs ++ failuresOf tgtRef done
               ++ (if bool_decide (n < length tags) then [ErrCanceled] else [])) |}.
Proof.
  induction tags as [|tag rest IH]; intros w errs log; simpl.
  - by rewrite !app_nil_r.
  - destruct (ctxDone w) eqn:Hdone; simpl.
    + by rewrite app_nil_r.
    + destruct (TagDelete w (SetTag tgtRef tag)) as [w' r] eqn:Hdel. simpl.
      assert (Hlt : bool_decide (S (issuedCount tgtRef w' rest) < S (length rest))
                    = bool_decide (issuedCount tgtRef w' rest < length rest))
        by (apply bool_decide_ext; lia).
      destruct r as [err|]; rewrite IH; simpl; rewrite Hlt;
        rewrite <- ?(assoc_L (++)); simpl; done.
Qed.

(** [issuedCount] is the position at which the context is first seen done. *)
Lemma issuedCount_canceled tgtRef w tags i :
  canceledBefore tgtRef w tags i → issuedCount tgtRef w tags = i.
Proof.
  revert w i. induction tags as [|tag rest IH]; intros w i (Hi & Hbefore & Hat).
  - simpl in Hi. lia.
  - simpl. destruct i as [|i].
    + simpl in Hat. by rewrite Hat.
    + pose proof (Hbefore 0 ltac:(lia)) as H0. simpl in H0. rewrite H0.
      f_equal. apply IH. split; [simpl in Hi; lia|].
      split; [|exact Hat]. intros j Hj. apply (Hbefore (S j)). lia.
Qed.

Lemma issuedCount_neverCanceled tgtRef w tags :
  neverCanceled tgtRef w tags → issuedCount tgtRef w tags = length tags.
Proof.
  revert w. induction tags as [|tag rest IH]; intros w Hnever; simpl; [done|].
  pose proof (Hnever 0 ltac:(simpl; lia)) as H0. simpl in H0. rewrite H0.
  f_equal. apply IH. intros j Hj. apply (Hnever (S j)). simpl. lia.
Qed.

(** When the loop stopped early, the context was seen done at that point. *)
Lemma issuedCount_stop tgtRef w tags :
  issuedCount tgtRef w tags < length tags →
  ctxDone (afterDeletes tgtRef w (take (issuedCount tgtRef w tags) tags)) = true.
Proof.
  revert w. induction tags as [|tag rest IH]; intros w; simpl; [lia|].
  destruct (ctxDone w) eqn:Hdone; simpl; [done|]. intros Hlt. apply IH. lia.
Qed.

Lemma errors_Join_None (errs : list error) : errors_Join errs = None ↔ errs = [].
Proof. destruct errs; simpl; split; congruence. Qed.

Lemma failuresOf_nil tgtRef (log : list (string * option ExtErr)) :
  failuresOf tgtRef log = [] ↔ ∀ a, a ∈ log → a.2 = None.
Proof.
  induction log as [|[tag r] log IH]; simpl.
  - split; [intros _ a Ha; by apply elem_of_nil in Ha|done].
  - destruct r as [err|]; simpl.
    + split; [done|]. intros H. specialize (H (tag, Some err)). simpl in H.
      discriminate H. left.
    + fold (failuresOf tgtRef log). rewrite IH. split.
      * intros H a Ha. apply elem_of_cons in Ha as [->|Ha]; [done|by apply H].
      * intros H a Ha. apply H. by right.
Qed.

Lemma issuedCount_before tgtRef w tags j :
  j < issuedCount tgtRef w tags →
  ctxDone (afterDeletes tgtRef w (take j tags)) = false.
Proof.
  revert w j. induction tags as [|tag rest IH]; intros w j; simpl; [lia|].
  destruct (ctxDone w) eqn:Hdone; [lia|]. intros Hj.
  destruct j as [|j]; simpl; [done|]. apply IH. lia.
Qed.

Lemma elem_of_failuresOf tgtRef (log : list (string * option ExtErr)) e :
  e ∈ failuresOf tgtRef log ↔
  ∃ tag err, (tag, Some err) ∈ log ∧ e = FailedToDeleteTag (CommonName tgtRef) tag err.
Proof.
  unfold failuresOf. rewrite list_elem_of_omap. split.
  - intros ([tag r] & Hin & Heq). destruct r as [err|]; simpl in Heq; [|done].
    exists tag, err. split; [done|congruence].
  - intros (tag & err & Hin & ->). by exists (tag, Some err).
Qed.

Lemma errors_Join_snoc (errs : list error) e :
  errors_Join (errs ++ [e]) = Some (Join (errs ++ [e])).
Proof. by destruct errs. Qed.

End DeletionLoop.

(** ** Errors of the stages before the deletions *)
Section EarlyErrors.
Context `{Ext : Externals}.

(** An error of the exclusion check names a pattern of the list that does
    not compile. *)
Definition invalidPatternError (patterns : list string) (e : error) : Prop :=
  ∃ pattern err, pattern ∈ patterns ∧ Compile pattern = Err err
                 ∧ e = InvalidExclusionPattern pattern err.

Lemma matchesExclusionPattern_Err tag patterns e :
  matchesExclusionPattern tag patterns = Err e → invalidPatternError patterns e.
Proof.
  induction patterns as [|pattern rest IH]; simpl; [done|].
  destruct (Compile pattern) as [exp|err] eqn:Hc.
  - destruct (MatchString exp tag); [done|]. intros H.
    destruct (IH H) as (q & err & Hq & Hcq & ->). exists q, err. split; [by right|done].
  - intros [= <-]. exists pattern, err. split; [left|done].
Qed.

Lemma classify_Err wantedTags patterns tTagsList : ∀ tagsToDelete e,
  classify wantedTags patterns tTagsList tagsToDelete = Err e →
  invalidPatternError patterns e.
Proof.
  induction tTagsList as [|tag rest IH]; intros acc e; simpl; [done|].
  case_bool_decide; [apply IH|].
  destruct (matchesExclusionPattern tag patterns) as [[excl pat]|e'] eqn:Hm.
  - destruct excl; apply IH.
  - intros [= <-]. by eapply matchesExclusionPattern_Err.
Qed.

Lemma wantedOfSets_Err sets tTagsList : ∀ wantedTags e,
  wantedOfSets sets tTagsList wantedTags = Err e → ∃ err, e = External err.
Proof.
  induction sets as [|set rest IH]; intros wantedTags e; simpl; [done|].
  destruct (filterTagList set tTagsList) as [cur|err]; [apply IH|].
  intros [= <-]. by exists err.
Qed.

Lemma wantedOfEntries_Err syncEntries tTagsList : ∀ wantedTags allSetsEmpty e,
  wantedOfEntries syncEntries tTagsList wantedTags allSetsEmpty = Err e →
  ∃ err, e = External err.
Proof.
  induction syncEntries as [|syncEntry rest IH]; intros wantedTags b e; simpl; [done|].
  case_bool_decide; [|apply IH].
  destruct (wantedOfSets (setsOf syncEntry) tTagsList wantedTags) as [w'|e'] eqn:Hs.
  - apply IH.
  - intros [= <-]. by eapply wantedOfSets_Err.
Qed.

Lemma computeWanted_Err syncEntries tTagsList e :
  computeWanted syncEntries tTagsList = Err e → ∃ err, e = External err.
Proof.
  unfold computeWanted.
  destruct (wantedOfEntries syncEntries tTagsList [] true) as [[wanted b]|e'] eqn:Hw;
    [done|]. intros [= <-]. by eapply wantedOfEntries_Err.
Qed.

(** [plan] unfolded along a successful listing. *)
Lemma plan_listed opts w tgt tgtRef w1 tTagsList :
  listed w tgt tgtRef w1 tTagsList →
  plan opts w tgt =
    match computeWanted (findSyncEntriesForTarget opts tgt) tTagsList with
    | Err err => (w1, Err err)
    | Ok wantedTags =>
        match classify wantedTags
                (allExclusionPatterns (findSyncEntriesForTarget opts tgt))
                tTagsList [] with
        | Err err => (w1, Err err)
        | Ok tagsToDelete => (w1, Ok (tgtRef, tagsToDelete))
        end
    end.
Proof.
  intros (Href & tTags & Hlist & Hget). unfold plan. by rewrite Href, Hlist, Hget.
Qed.

(** [plan] never returns a joined error. *)
Lemma plan_Err opts w tgt w1 e :
  plan opts w tgt = (w1, Err e) →
  (∃ err, e = External err)
  ∨ invalidPatternError (allExclusionPatterns (findSyncEntriesForTarget opts tgt)) e.
Proof.
  unfold plan. destruct (ref_New tgt) as [tgtRef|err].
  2: { intros [= _ <-]. left. by exists err. }
  destruct (TagList w tgtRef) as [w' [tTags|err]].
  2: { intros [= _ <-]. left. by exists err. }
  destruct (GetTags tTags) as [tTagsList|err].
  2: { intros [= _ <-]. left. by exists err. }
  destruct (computeWanted _ tTagsList) as [wantedTags|e'] eqn:Hw.
  2: { intros [= _ <-]. left. by eapply computeWanted_Err. }
  destruct (classify wantedTags _ tTagsList []) as [tagsToDelete|e'] eqn:Hc; [done|].
  intros [= _ <-]. right. by eapply classify_Err.
Qed.

End EarlyErrors.

(** ** The wanted tags and the classification *)
Section Classification.
Context `{Ext : Externals}.
Implicit Types (tag : string) (wantedTags tTagsList patterns : list string).

Lemma elem_of_addUnique filteredCur : ∀ wantedTags tag,
  tag ∈ addUnique wantedTags filteredCur ↔ tag ∈ wantedTags ∨ tag ∈ filteredCur.
Proof.
  induction filteredCur as [|t rest IH]; intros wantedTags tag; simpl.
  - rewrite elem_of_nil. tauto.
  - rewrite (elem_of_cons rest). case_bool_decide as Hin; rewrite IH.
    + split; [tauto|]. intros [?|[->|?]]; tauto.
    + rewrite elem_of_app, list_elem_of_singleton. tauto.
Qed.

Lemma setsOf_nil syncEntry : setsOf syncEntry = [] ↔ noFilterSets syncEntry.
Proof.
  unfold setsOf, noFilterSets.
  destruct syncEntry as [target [allow deny range] sets excl]; simpl.
  destruct allow, deny, range, sets; simpl; split; try done;
    intros (? & ? & ? & ?); done.
Qed.

(** When every filter set of [sets] applies without error, the loop over
    them adds exactly the survivors. *)
Lemma wantedOfSets_Ok sets tTagsList : ∀ wantedTags,
  (∀ set, set ∈ sets → ∃ filteredCur, filterTagList set tTagsList = Ok filteredCur) →
  ∃ wantedTags', wantedOfSets sets tTagsList wantedTags = Ok wantedTags'
    ∧ ∀ tag, tag ∈ wantedTags' ↔
        tag ∈ wantedTags ∨ tag ∈ sets ≫= (λ set, survivors set tTagsList).
Proof.
  induction sets as [|set rest IH]; intros wantedTags Hok; simpl.
  - exists wantedTags. split; [done|]. intros tag. rewrite elem_of_nil. tauto.
  - destruct (Hok set) as [cur Hcur]; [left|]. rewrite Hcur.
    destruct (IH (addUnique wantedTags cur)) as (w' & Hw' & Hmem).
    { intros set' Hin. apply Hok. by right. }
    exists w'. split; [done|]. intros tag.
    rewrite Hmem, elem_of_addUnique, elem_of_app. unfold survivors at 2.
    rewrite Hcur. tauto.
Qed.

Lemma unionWanted_cons syncEntry rest tTagsList :
  unionWanted (syncEntry :: rest) tTagsList
  = (setsOf syncEntry ≫= (λ set, survivors set tTagsList))
    ++ unionWanted rest tTagsList.
Proof. unfold unionWanted. by rewrite bind_cons. Qed.

Lemma wantedOfEntries_Ok syncEntries tTagsList : ∀ wantedTags allSetsEmpty,
  (∀ syncEntry set, syncEntry ∈ syncEntries → set ∈ setsOf syncEntry →
     ∃ filteredCur, filterTagList set tTagsList = Ok filteredCur) →
  ∃ wantedTags' allSetsEmpty',
    wantedOfEntries syncEntries tTagsList wantedTags allSetsEmpty
      = Ok (wantedTags', allSetsEmpty')
    ∧ (∀ tag, tag ∈ wantedTags' ↔
         tag ∈ wantedTags ∨ tag ∈ unionWanted syncEntries tTagsList)
    ∧ (allSetsEmpty' = true ↔
         allSetsEmpty = true ∧ ∀ syncEntry, syncEntry ∈ syncEntries →
                                  noFilterSets syncEntry).
Proof.
  induction syncEntries as [|syncEntry rest IH]; intros wantedTags b Hok;
    cbn [wantedOfEntries].
  - exists wantedTags, b. split; [done|]. split.
    + intros tag. unfold unionWanted. simpl. rewrite elem_of_nil. tauto.
    + split; [|tauto]. intros ->. split; [done|]. intros e He.
      by apply elem_of_nil in He.
  - assert (Hrest : ∀ e set, e ∈ rest → set ∈ setsOf e →
              ∃ cur, filterTagList set tTagsList = Ok cur).
    { intros e set He. apply Hok. by right. }
    setoid_rewrite unionWanted_cons. case_bool_decide as Hlen.
    + destruct (wantedOfSets_Ok (setsOf syncEntry) tTagsList wantedTags)
        as (w1 & Hw1 & Hmem1).
      { intros set. apply Hok. left. }
      rewrite Hw1. destruct (IH w1 false Hrest) as (w2 & b2 & Hw2 & Hmem2 & Hb2).
      exists w2, b2. split; [done|]. split.
      * intros tag. rewrite Hmem2, Hmem1, elem_of_app. tauto.
      * split; [intros Hb; apply Hb2 in Hb as [? _]; done|].
        intros [_ Hall]. exfalso.
        assert (Hnil : setsOf syncEntry = []) by (apply setsOf_nil, Hall; left).
        rewrite Hnil in Hlen. simpl in Hlen. lia.
    + assert (Hnil : setsOf syncEntry = []).
      { destruct (setsOf syncEntry); [done|]. simpl in Hlen. lia. }
      destruct (IH wantedTags b Hrest) as (w2 & b2 & Hw2 & Hmem2 & Hb2).
      exists w2, b2. split; [done|]. split.
      * intros tag. rewrite Hmem2, Hnil. simpl. tauto.
      * rewrite Hb2. split; intros [Hb Hall]; (split; [done|]).
        -- intros e He. apply elem_of_cons in He as [->|He]; [|by apply Hall].
           by apply setsOf_nil.
        -- intros e He. apply Hall. by right.
Qed.

(** The wanted tags when every filter applies without error: all the listed
    tags when no entry has a filter set, the union otherwise. *)
Lemma computeWanted_Ok syncEntries tTagsList :
  (∀ syncEntry set, syncEntry ∈ syncEntries → set ∈ setsOf syncEntry →
     ∃ filteredCur, filterTagList set tTagsList = Ok filteredCur) →
  ∃ wantedTags, computeWanted syncEntries tTagsList = Ok wantedTags
    ∧ ((∀ syncEntry, syncEntry ∈ syncEntries → noFilterSets syncEntry) →
         wantedTags = tTagsList)
    ∧ ((∃ syncEntry, syncEntry ∈ syncEntries ∧ ¬ noFilterSets syncEntry) →
         ∀ tag, tag ∈ wantedTags ↔ tag ∈ unionWanted syncEntries tTagsList).
Proof.
  intros Hok. unfold computeWanted.
  destruct (wantedOfEntries_Ok syncEntries tTagsList [] true Hok)
    as (w' & b' & -> & Hmem & Hb).
  destruct b'.
  - exists tTagsList. split; [done|]. split; [done|].
    intros (e & He & Hne). exfalso. apply Hne. destruct Hb as [Hb _].
    by apply Hb.
  - exists w'. split; [done|]. split.
    + intros Hall. destruct Hb as [_ Hb]. by discriminate Hb.
    + intros _ tag. rewrite Hmem, elem_of_nil. tauto.
Qed.

(** Without any filter set the wanted tags are the listed tags, whatever
    [filterTagList] would answer. *)
Lemma computeWanted_no_filters syncEntries tTagsList :
  (∀ syncEntry, syncEntry ∈ syncEntries → noFilterSets syncEntry) →
  computeWanted syncEntries tTagsList = Ok tTagsList.
Proof.
  intros Hall.
  destruct (computeWanted_Ok syncEntries tTagsList) as (w' & -> & Hw & _).
  - intros e set He Hset. apply Hall, setsOf_nil in He. rewrite He in Hset.
    by apply elem_of_nil in Hset.
  - by rewrite Hw.
Qed.

Lemma allExclusionPatterns_pooled syncEntries :
  allExclusionPatterns syncEntries = pooledExclusions syncEntries.
Proof.
  unfold allExclusionPatterns, pooledExclusions.
  assert (H : ∀ acc, foldl (λ acc e, acc ++ CleanupTagsExclude e) acc syncEntries
                     = acc ++ syncEntries ≫= CleanupTagsExclude).
  { induction syncEntries as [|e rest IH]; intros acc; simpl.
    - by rewrite app_nil_r.
    - by rewrite IH, (assoc_L (++)). }
  apply (H []).
Qed.

(** The exclusion check when every pattern compiles: whether some pattern
    matches. *)
Lemma matchesExclusionPattern_Ok tag patterns :
  (∀ pattern, pattern ∈ patterns → ∃ exp, Compile pattern = Ok exp) →
  ∃ pattern, matchesExclusionPattern tag patterns
             = Ok (excluded patterns tag, pattern).
Proof.
  induction patterns as [|p rest IH]; intros Hok; simpl.
  - by exists "".
  - unfold matchesPattern. destruct (Hok p) as [exp Hexp]; [left|]. rewrite Hexp.
    destruct (MatchString exp tag); simpl; [by exists p|].
    apply IH. intros q Hq. apply Hok. by right.
Qed.

(** The exclusion check stops at a pattern that does not compile when no
    earlier pattern matched the tag. *)
Lemma matchesExclusionPattern_reaches tag before pattern after err :
  (∀ q, q ∈ before → ∃ exp, Compile q = Ok exp ∧ MatchString exp tag = false) →
  Compile pattern = Err err →
  matchesExclusionPattern tag (before ++ pattern :: after)
  = Err (InvalidExclusionPattern pattern err).
Proof.
  intros Hbefore Hbad. induction before as [|q rest IH]; simpl.
  - by rewrite Hbad.
  - destruct (Hbefore q) as (exp & -> & ->); [left|].
    apply IH. intros q' Hq'. apply Hbefore. by right.
Qed.

(** The classification in closed form when every pattern compiles. *)
Lemma classify_Ok wantedTags patterns tTagsList : ∀ tagsToDelete,
  (∀ pattern, pattern ∈ patterns → ∃ exp, Compile pattern = Ok exp) →
  classify wantedTags patterns tTagsList tagsToDelete
  = Ok (tagsToDelete
        ++ filter (λ tag, ¬ (tag ∈ wantedTags) ∧ excluded patterns tag = false)
             tTagsList).
Proof.
  intros acc Hok. revert acc.
  induction tTagsList as [|tag rest IH]; intros acc; simpl.
  - by rewrite app_nil_r.
  - rewrite filter_cons. case_bool_decide as Hin.
    + rewrite decide_False by tauto. apply IH.
    + destruct (matchesExclusionPattern_Ok tag patterns Hok) as [p ->].
      destruct (excluded patterns tag) eqn:Hex.
      * rewrite decide_False by (intros [_ ?]; done). apply IH.
      * rewrite decide_True by done. rewrite IH. by rewrite <- (assoc_L (++)).
Qed.

(** Wanted tags are skipped before any pattern is compiled. *)
Lemma classify_all_wanted wantedTags patterns tTagsList : ∀ tagsToDelete,
  (∀ tag, tag ∈ tTagsList → tag ∈ wantedTags) →
  classify wantedTags patterns tTagsList tagsToDelete = Ok tagsToDelete.
Proof.
  induction tTagsList as [|tag rest IH]; intros acc Hall; simpl; [done|].
  rewrite bool_decide_eq_true_2 by (apply Hall; left).
  apply IH. intros t Ht. apply Hall. by right.
Qed.

(** A failing exclusion check on a listed tag that is not wanted makes the
    classification fail. *)
Lemma classify_aborts wantedTags patterns tTagsList tag e : ∀ tagsToDelete,
  tag ∈ tTagsList → ¬ (tag ∈ wantedTags) →
  matchesExclusionPattern tag patterns = Err e →
  ∃ e', classify wantedTags patterns tTagsList tagsToDelete = Err e'.
Proof.
  intros acc Hin Hnot Hbad. revert acc.
  induction tTagsList as [|t rest IH]; intros acc; [by apply elem_of_nil in Hin|].
  simpl. apply elem_of_cons in Hin as [<-|Hin].
  - rewrite bool_decide_eq_false_2 by done. rewrite Hbad. by exists e.
  - case_bool_decide; [by apply IH|].
    destruct (matchesExclusionPattern t patterns) as [[excl p]|e'];
      [|by exists e'].
    destruct excl; by apply IH.
Qed.

(** A tag passes the exclusion check unmatched only after every pattern
    compiled. *)
Lemma matchesExclusionPattern_unmatched tag patterns pattern :
  matchesExclusionPattern tag patterns = Ok (false, pattern) →
  ∀ q, q ∈ patterns → ∃ exp, Compile q = Ok exp.
Proof.
  induction patterns as [|p rest IH]; simpl.
  - intros _ q Hq. by apply elem_of_nil in Hq.
  - destruct (Compile p) as [exp|err] eqn:Hc; [|done].
    destruct (MatchString exp tag); [done|]. intros Hm q Hq.
    apply elem_of_cons in Hq as [->|Hq]; [by exists exp|by apply IH].
Qed.

(** With a pattern that does not compile in the list, no tag is ever
    scheduled for deletion. *)
Lemma classify_invalid_schedules_nothing wantedTags patterns tTagsList :
  (∃ pattern err, pattern ∈ patterns ∧ Compile pattern = Err err) →
  ∀ tagsToDelete scheduled,
    classify wantedTags patterns tTagsList tagsToDelete = Ok scheduled →
    scheduled = tagsToDelete.
Proof.
  intros (bad & err & Hbad & Hc).
  induction tTagsList as [|tag rest IH]; intros acc l; simpl.
  - by intros [= <-].
  - case_bool_decide; [apply IH|].
    destruct (matchesExclusionPattern tag patterns) as [[excl p]|e] eqn:Hm; [|done].
    destruct excl; [apply IH|].
    destruct (matchesExclusionPattern_unmatched _ _ _ Hm bad Hbad) as [exp Hexp].
    congruence.
Qed.

(** [plan] succeeds only after a successful listing. *)
Lemma plan_Ok_listed opts w tgt w1 tgtRef tagsToDelete :
  plan opts w tgt = (w1, Ok (tgtRef, tagsToDelete)) →
  ∃ tTagsList, listed w tgt tgtRef w1 tTagsList.
Proof.
  unfold plan, listed. destruct (ref_New tgt) as [r|err]; [|done].
  destruct (TagList w r) as [w' [tTags|err]] eqn:Hlist; [|done].
  destruct (GetTags tTags) as [tTagsList|err] eqn:Hget; [|done].
  destruct (computeWanted _ tTagsList) as [wantedTags|e']; [|done].
  destruct (classify wantedTags _ tTagsList []) as [tags|e']; [|done].
  intros [= <- <- <-]. exists tTagsList. split; [done|]. by exists tTags.
Qed.

End Classification.

(** ** Cancellation and failure isolation *)
Section DeletionClaims.
Context `{Ext : Externals}.

(** C5.  When the cleanup reaches its deletion loop with the scheduled tags
    [tagsToDelete] and the caller's cancellation is first observed before
    deletion number [i], exactly the deletions before position [i] are
    issued, the value returned joins the failures of those deletions followed
    by [ErrCanceled], and the state left is the one the issued deletions
    produced: nothing is undone. *)
Theorem cleanupTags_cancellation opts w s tgt w1 tgtRef tagsToDelete i :
  plan opts w tgt = (w1, Ok (tgtRef, tagsToDelete)) →
  canceledBefore tgtRef w1 tagsToDelete i →
  (issued (cleanupTags opts w s tgt)).*1 = take i tagsToDelete
  ∧ issued (cleanupTags opts w s tgt) = answers tgtRef w1 (take i tagsToDelete)
  ∧ result (cleanupTags opts w s tgt)
    = Some (Join (failuresOf tgtRef (answers tgtRef w1 (take i tagsToDelete))
                  ++ [ErrCanceled]))
  ∧ world (cleanupTags opts w s tgt)
    = afterDeletes tgtRef w1 (take i tagsToDelete).
Proof.
  intros Hplan Hcancel. pose proof Hcancel as (Hi & _ & _).
  unfold cleanupTags. rewrite Hplan, deleteTags_closed.
  rewrite (issuedCount_canceled _ _ _ _ Hcancel). simpl.
  rewrite bool_decide_eq_true_2 by done.
  rewrite answers_tags, errors_Join_snoc. done.
Qed.

(** C6.  When the cleanup reaches its deletion loop and the context is never
    seen done, every scheduled deletion is issued whatever the registry
    answered to the earlier ones, and the value returned joins exactly the
    failures that occurred, in order: nil when there was none. *)
Theorem cleanupTags_failure_isolation opts w s tgt w1 tgtRef tagsToDelete :
  plan opts w tgt = (w1, Ok (tgtRef, tagsToDelete)) →
  neverCanceled tgtRef w1 tagsToDelete →
  (issued (cleanupTags opts w s tgt)).*1 = tagsToDelete
  ∧ issued (cleanupTags opts w s tgt) = answers tgtRef w1 tagsToDelete
  ∧ result (cleanupTags opts w s tgt)
    = errors_Join (failuresOf tgtRef (answers tgtRef w1 tagsToDelete))
  ∧ (∀ e, e ∈ failuresOf tgtRef (answers tgtRef w1 tagsToDelete) ↔
       ∃ tag err, (tag, Some err) ∈ issued (cleanupTags opts w s tgt)
                  ∧ e = FailedToDeleteTag (CommonName tgtRef) tag err)
  ∧ (result (cleanupTags opts w s tgt) = None ↔
       ∀ a, a ∈ issued (cleanupTags opts w s tgt) → a.2 = None).
Proof.
  intros Hplan Hnever. unfold cleanupTags. rewrite Hplan, deleteTags_closed.
  rewrite (issuedCount_neverCanceled _ _ _ Hnever). simpl.
  rewrite bool_decide_eq_false_2 by lia. rewrite firstn_all, app_nil_r.
  rewrite answers_tags. repeat split; try done.
  - by apply elem_of_failuresOf.
  - by apply elem_of_failuresOf.
  - intros H. apply errors_Join_None in H. by apply (failuresOf_nil tgtRef).
  - intros H. apply errors_Join_None. by apply (failuresOf_nil tgtRef).
Qed.

(** C10.  When nothing is scheduled for deletion the cleanup returns nil,
    whatever the state of the caller's context; and whenever the value
    returned holds [ErrCanceled], the loop was reached with a deletion still
    to issue at the position where the context was seen done. *)
Theorem cleanupTags_nothing_scheduled opts w s tgt :
  (∀ w1 tgtRef, plan opts w tgt = (w1, Ok (tgtRef, [])) →
     cleanupTags opts w s tgt = {| world := w1; issued := []; result := None |})
  ∧ (∀ errs, result (cleanupTags opts w s tgt) = Some (Join errs) →
       ErrCanceled ∈ errs →
       ∃ w1 tgtRef tagsToDelete i,
         plan opts w tgt = (w1, Ok (tgtRef, tagsToDelete))
         ∧ canceledBefore tgtRef w1 tagsToDelete i
         ∧ (issued (cleanupTags opts w s tgt)).*1 = take i tagsToDelete).
Proof.
  split.
  - intros w1 tgtRef Hplan. unfold cleanupTags. by rewrite Hplan.
  - intros errs. unfold cleanupTags.
    destruct (plan opts w tgt) as [w1 [[tgtRef tags]|e]] eqn:Hplan.
    + rewrite deleteTags_closed. simpl. intros Hres Hin.
      set (n := issuedCount tgtRef w1 tags) in *.
      assert (Hn : n < length tags).
      { destruct (decide (n < length tags)) as [|Hge]; [done|exfalso].
        rewrite bool_decide_eq_false_2, app_nil_r in Hres by done.
        destruct (failuresOf tgtRef _) eqn:Hf; [done|]. simpl in Hres.
        injection Hres as <-. rewrite <- Hf in Hin.
        apply elem_of_failuresOf in Hin as (? & ? & _ & ?). done. }
      exists w1, tgtRef, tags, n. split; [done|]. split.
      * split; [done|]. split; [apply issuedCount_before|by apply issuedCount_stop].
      * by rewrite answers_tags.
    + simpl. intros [= ->] _.
      apply plan_Err in Hplan as [(err & ?)|(p & err & _ & _ & ?)]; done.
Qed.

End DeletionClaims.

(** ** The union rule, the exclusions and the rules without filters *)
Section PolicyClaims.
Context `{Ext : Externals}.

(** Without any filter set, a successful listing schedules nothing. *)
Lemma plan_no_filters opts w tgt tgtRef w1 tTagsList :
  (∀ syncEntry, syncEntry ∈ findSyncEntriesForTarget opts tgt →
     noFilterSets syncEntry) →
  listed w tgt tgtRef w1 tTagsList →
  plan opts w tgt = (w1, Ok (tgtRef, [])).
Proof.
  intros Hall Hl. rewrite (plan_listed _ _ _ _ _ _ Hl).
  rewrite computeWanted_no_filters by done. by rewrite classify_all_wanted.
Qed.

Lemma issued_no_filters opts w s tgt :
  (∀ syncEntry, syncEntry ∈ findSyncEntriesForTarget opts tgt →
     noFilterSets syncEntry) →
  issued (cleanupTags opts w s tgt) = [].
Proof.
  intros Hall. unfold cleanupTags.
  destruct (plan opts w tgt) as [w1 [[tgtRef tags]|e]] eqn:Hplan; [|done].
  destruct (plan_Ok_listed _ _ _ _ _ _ Hplan) as [tTagsList Hl].
  rewrite (plan_no_filters _ _ _ _ _ _ Hall Hl) in Hplan.
  by injection Hplan as <-.
Qed.

(** C4.  When every sync entry on the target has no filter set (no tagSets,
    empty allow, deny and semverRange), every listed tag is wanted, no
    deletion is issued, and after a successful listing the cleanup returns
    nil. *)
Theorem cleanupTags_no_filters opts w s tgt :
  (∀ syncEntry, syncEntry ∈ findSyncEntriesForTarget opts tgt →
     noFilterSets syncEntry) →
  (∀ tTagsList,
     computeWanted (findSyncEntriesForTarget opts tgt) tTagsList = Ok tTagsList)
  ∧ issued (cleanupTags opts w s tgt) = []
  ∧ (∀ tgtRef w1 tTagsList, listed w tgt tgtRef w1 tTagsList →
       cleanupTags opts w s tgt = {| world := w1; issued := []; result := None |}).
Proof.
  intros Hall.
  split; [intros tTagsList; by apply computeWanted_no_filters|].
  split; [by apply issued_no_filters|].
  intros tgtRef w1 tTagsList Hl. unfold cleanupTags.
  by rewrite (plan_no_filters _ _ _ _ _ _ Hall Hl).
Qed.

(** C2, amended.  After a successful listing, when every filter set applies
    without error and every pooled exclusion pattern compiles: if some sync
    entry on the target has a filter set, the tags scheduled are exactly the
    listed tags outside the union of the survivors of every filter set of
    every such entry that match no pooled exclusion pattern, and they are the
    deletions issued when the context is never seen done; if no entry has a
    filter set, nothing is deleted.  In particular, with rule A allowing
    [^stable$] and rule B allowing [^latest$] on the same target and the tags
    stable, latest and old, only old is deleted. *)
Theorem cleanupTags_union_rule opts w s tgt tgtRef w1 tTagsList :
  listed w tgt tgtRef w1 tTagsList →
  ((∀ syncEntry set, syncEntry ∈ findSyncEntriesForTarget opts tgt →
      set ∈ setsOf syncEntry →
      ∃ filteredCur, filterTagList set tTagsList = Ok filteredCur) →
   (∀ pattern, pattern ∈ pooledExclusions (findSyncEntriesForTarget opts tgt) →
      ∃ exp, Compile pattern = Ok exp) →
   ((∃ syncEntry, syncEntry ∈ findSyncEntriesForTarget opts tgt
                  ∧ ¬ noFilterSets syncEntry) →
      plan opts w tgt
      = (w1, Ok (tgtRef,
                 deletionsByUnion (findSyncEntriesForTarget opts tgt) tTagsList))
      ∧ (neverCanceled tgtRef w1
           (deletionsByUnion (findSyncEntriesForTarget opts tgt) tTagsList) →
         (issued (cleanupTags opts w s tgt)).*1
         = deletionsByUnion (findSyncEntriesForTarget opts tgt) tTagsList))
   ∧ ((∀ syncEntry, syncEntry ∈ findSyncEntriesForTarget opts tgt →
         noFilterSets syncEntry) →
      issued (cleanupTags opts w s tgt) = []))
  ∧ (findSyncEntriesForTarget opts tgt = [Scenario.ruleA; Scenario.ruleB] →
     tTagsList = ["stable"; "latest"; "old"] →
     filterTagList (Scenario.allowOnly "^stable$") tTagsList = Ok ["stable"] →
     filterTagList (Scenario.allowOnly "^latest$") tTagsList = Ok ["latest"] →
     neverCanceled tgtRef w1 ["old"] →
     (issued (cleanupTags opts w s tgt)).*1 = ["old"]).
Proof.
  intros Hl.
  assert (Hgen : (∀ syncEntry set, syncEntry ∈ findSyncEntriesForTarget opts tgt →
      set ∈ setsOf syncEntry →
      ∃ filteredCur, filterTagList set tTagsList = Ok filteredCur) →
   (∀ pattern, pattern ∈ pooledExclusions (findSyncEntriesForTarget opts tgt) →
      ∃ exp, Compile pattern = Ok exp) →
   (∃ syncEntry, syncEntry ∈ findSyncEntriesForTarget opts tgt
                  ∧ ¬ noFilterSets syncEntry) →
      plan opts w tgt
      = (w1, Ok (tgtRef,
                 deletionsByUnion (findSyncEntriesForTarget opts tgt) tTagsList))).
  { intros Hfilters Hpatterns Hsome. rewrite (plan_listed _ _ _ _ _ _ Hl).
    destruct (computeWanted_Ok _ _ Hfilters) as (wantedTags & -> & _ & Hmem).
    specialize (Hmem Hsome). rewrite allExclusionPatterns_pooled.
    rewrite classify_Ok by done. simpl. do 3 f_equal.
    apply list_filter_iff. intros tag. by rewrite Hmem. }
  assert (Hrun : ∀ tags, plan opts w tgt = (w1, Ok (tgtRef, tags)) →
            neverCanceled tgtRef w1 tags →
            (issued (cleanupTags opts w s tgt)).*1 = tags).
  { intros tags Hplan Hnever. unfold cleanupTags.
    rewrite Hplan, deleteTags_closed, (issuedCount_neverCanceled _ _ _ Hnever).
    simpl. by rewrite firstn_all, answers_tags. }
  split.
  - intros Hfilters Hpatterns. split.
    + intros Hsome. split; [by apply Hgen|]. apply Hrun. by apply Hgen.
    + intros Hnone. by apply issued_no_filters.
  - intros Hentries -> HA HB Hnever. rewrite Hentries in Hgen.
    apply Hrun; [|done]. rewrite Hgen.
    + do 3 f_equal. unfold deletionsByUnion, unionWanted, pooledExclusions.
      simpl. unfold survivors. rewrite HA, HB. reflexivity.
    + intros e set He Hset.
      apply elem_of_cons in He as [->|He];
        [|apply list_elem_of_singleton in He as ->];
        apply list_elem_of_singleton in Hset as ->; eauto.
    + intros pattern Hp. by apply elem_of_nil in Hp.
    + exists Scenario.ruleA. split; [left|]. by intros (_ & ? & _).
Qed.

(** C3, amended.  After a successful listing and a successful computation of
    the wanted tags: if some listed tag is not wanted and, scanning the pooled
    exclusion patterns in order for it, a pattern that does not compile is
    reached before any pattern that matches the tag, the cleanup returns an
    invalid-pattern error naming a pattern of the pool that does not compile
    (that very pattern when it is the only one), and no deletion is issued.
    When every listed tag is wanted no pattern is compiled and the cleanup
    returns nil.  In every case, a pool that holds a pattern that does not
    compile lets no deletion through. *)
Theorem cleanupTags_invalid_exclusion opts w s tgt tgtRef w1 tTagsList wantedTags :
  listed w tgt tgtRef w1 tTagsList →
  computeWanted (findSyncEntriesForTarget opts tgt) tTagsList = Ok wantedTags →
  (∀ tag before pattern after err,
     tag ∈ tTagsList → ¬ (tag ∈ wantedTags) →
     pooledExclusions (findSyncEntriesForTarget opts tgt)
     = before ++ pattern :: after →
     (∀ q, q ∈ before → ∃ exp, Compile q = Ok exp ∧ MatchString exp tag = false) →
     Compile pattern = Err err →
     issued (cleanupTags opts w s tgt) = []
     ∧ world (cleanupTags opts w s tgt) = w1
     ∧ (∃ bad err', bad ∈ pooledExclusions (findSyncEntriesForTarget opts tgt)
          ∧ Compile bad = Err err'
          ∧ result (cleanupTags opts w s tgt)
            = Some (InvalidExclusionPattern bad err'))
     ∧ ((∀ q, q ∈ pooledExclusions (findSyncEntriesForTarget opts tgt) →
           (∃ err', Compile q = Err err') → q = pattern) →
        result (cleanupTags opts w s tgt)
        = Some (InvalidExclusionPattern pattern err)))
  ∧ ((∀ tag, tag ∈ tTagsList → tag ∈ wantedTags) →
     cleanupTags opts w s tgt = {| world := w1; issued := []; result := None |})
  ∧ ((∃ pattern err,
        pattern ∈ pooledExclusions (findSyncEntriesForTarget opts tgt)
        ∧ Compile pattern = Err err) →
     issued (cleanupTags opts w s tgt) = []).
Proof.
  intros Hl Hwanted. split; [|split].
  - intros tag before pattern after err Hin Hnot Hsplit Hbefore Hbad.
    pose proof (matchesExclusionPattern_reaches tag before pattern after err
                  Hbefore Hbad) as Hm.
    rewrite <- Hsplit, <- allExclusionPatterns_pooled in Hm.
    destruct (classify_aborts wantedTags _ tTagsList tag _ [] Hin Hnot Hm)
      as [e' He'].
    pose proof (classify_Err _ _ _ _ _ He') as (bad & err' & Hbadin & Hc & ->).
    rewrite allExclusionPatterns_pooled in Hbadin.
    unfold cleanupTags. rewrite (plan_listed _ _ _ _ _ _ Hl), Hwanted, He'. simpl.
    split; [done|]. split; [done|]. split; [by exists bad, err'|].
    intros Honly. assert (bad = pattern) as -> by (apply Honly; eauto).
    rewrite Hbad in Hc. by injection Hc as ->.
  - intros Hall. unfold cleanupTags.
    rewrite (plan_listed _ _ _ _ _ _ Hl), Hwanted.
    by rewrite classify_all_wanted.
  - intros Hinvalid. rewrite <- allExclusionPatterns_pooled in Hinvalid.
    unfold cleanupTags. rewrite (plan_listed _ _ _ _ _ _ Hl), Hwanted.
    destruct (classify wantedTags _ tTagsList []) as [tags|e] eqn:Hc; [|done].
    by rewrite (classify_invalid_schedules_nothing _ _ _ Hinvalid _ _ Hc).
Qed.

End PolicyClaims.

Lemma cleanupTags_no_filters_witness :
  noFilterSets Scenario.ruleNone
  ∧ cleanupTags (Ext:=Fixture.externals) Scenario.optsNone Fixture.regOld
      Scenario.ruleNone "repo:tag"
    = @Build_Outcome Fixture.externals (Fixture.tick Fixture.regOld) [] None.
Proof.
  assert (Hn : noFilterSets Scenario.ruleNone) by (repeat split).
  split; [exact Hn|].
  refine (proj2 (proj2 (cleanupTags_no_filters (Ext:=Fixture.externals)
    Scenario.optsNone Fixture.regOld Scenario.ruleNone "repo:tag" _))
    Fixture.tgtRef (Fixture.tick Fixture.regOld) ["old"] _).
  - intros e He. apply list_elem_of_singleton in He. by rewrite He.
  - split; [reflexivity|]. by exists ["old"].
Defined.

Lemma cleanupTags_union_rule_witness :
  listed (Ext:=Fixture.externals) Fixture.regAB "repo:tag" Fixture.tgtRef
    (Fixture.tick Fixture.regAB) ["stable"; "latest"; "old"]
  ∧ (issued (cleanupTags (Ext:=Fixture.externals) Scenario.optsAB Fixture.regAB
               Scenario.ruleA "repo:tag")).*1 = ["old"].
Proof.
  assert (Hl : listed (Ext:=Fixture.externals) Fixture.regAB "repo:tag"
                 Fixture.tgtRef (Fixture.tick Fixture.regAB)
                 ["stable"; "latest"; "old"]).
  { split; [reflexivity|]. by exists ["stable"; "latest"; "old"]. }
  split; [exact Hl|].
  refine (proj2 (cleanupTags_union_rule (Ext:=Fixture.externals) Scenario.optsAB
    Fixture.regAB Scenario.ruleA "repo:tag" Fixture.tgtRef
    (Fixture.tick Fixture.regAB) ["stable"; "latest"; "old"] Hl)
    eq_refl eq_refl eq_refl eq_refl _).
  intros [|j] Hj; [reflexivity|simpl in Hj; lia].
Defined.

(** The union rule alone would delete [old] under a rule without filters;
    the cleanup deletes nothing there. *)
Lemma cleanupTags_union_rule_counterexample :
  listed (Ext:=Fixture.externals) Fixture.regOld "repo:tag" Fixture.tgtRef
    (Fixture.tick Fixture.regOld) ["old"]
  ∧ findSyncEntriesForTarget Scenario.optsNone "repo:tag" = [Scenario.ruleNone]
  ∧ setsOf Scenario.ruleNone = []
  ∧ pooledExclusions [Scenario.ruleNone] = []
  ∧ neverCanceled (Ext:=Fixture.externals) Fixture.tgtRef
      (Fixture.tick Fixture.regOld) ["old"]
  ∧ deletionsByUnion (Ext:=Fixture.externals) [Scenario.ruleNone] ["old"] = ["old"]
  ∧ (issued (cleanupTags (Ext:=Fixture.externals) Scenario.optsNone Fixture.regOld
               Scenario.ruleNone "repo:tag")).*1 = [].
Proof.
  repeat split; try reflexivity.
  - by exists ["old"].
  - intros [|j] Hj; [reflexivity|simpl in Hj; lia].
Qed.

Lemma cleanupTags_invalid_exclusion_witness :
  listed (Ext:=Fixture.externals) Fixture.regMixed "repo:tag" Fixture.tgtRef
    (Fixture.tick Fixture.regMixed) ["stable"; "old"]
  ∧ issued (cleanupTags (Ext:=Fixture.externals) Scenario.optsBad Fixture.regMixed
              Scenario.ruleBad "repo:tag") = []
  ∧ result (cleanupTags (Ext:=Fixture.externals) Scenario.optsBad Fixture.regMixed
              Scenario.ruleBad "repo:tag")
    = Some (InvalidExclusionPattern (H:=Fixture.externals) "(" "missing closing )").
Proof.
  assert (Hl : listed (Ext:=Fixture.externals) Fixture.regMixed "repo:tag"
                 Fixture.tgtRef (Fixture.tick Fixture.regMixed) ["stable"; "old"]).
  { split; [reflexivity|]. by exists ["stable"; "old"]. }
  split; [exact Hl|].
  assert (Hin : "old" ∈ ["stable"; "old"]) by (right; left).
  assert (Hnot : ¬ ("old" ∈ ["stable"])).
  { intros H. apply list_elem_of_singleton in H. discriminate H. }
  assert (Hbefore : ∀ q, q ∈ @nil string →
            ∃ exp, @Compile Fixture.externals q = Ok exp
                   ∧ @MatchString Fixture.externals exp "old" = false).
  { intros q Hq. by apply elem_of_nil in Hq. }
  assert (Honly : ∀ q,
            q ∈ pooledExclusions
                  (findSyncEntriesForTarget Scenario.optsBad "repo:tag") →
            (∃ err', @Compile Fixture.externals q = Err err') → q = "(").
  { intros q Hq [err' Herr]. apply elem_of_cons in Hq as [->|Hq]; [done|].
    apply list_elem_of_singleton in Hq as ->. discriminate Herr. }
  destruct (proj1 (cleanupTags_invalid_exclusion (Ext:=Fixture.externals)
    Scenario.optsBad Fixture.regMixed Scenario.ruleBad "repo:tag" Fixture.tgtRef
    (Fixture.tick Fixture.regMixed) ["stable"; "old"] ["stable"] Hl eq_refl)
    "old" [] "(" ["^old$"] "missing closing )" Hin Hnot eq_refl Hbefore eq_refl)
    as (Hissued & _ & _ & Hresult).
  split; [exact Hissued|exact (Hresult Honly)].
Defined.

(** A malformed exclusion pattern under a rule that wants every tag: the
    cleanup returns nil. *)
Lemma cleanupTags_invalid_exclusion_counterexample :
  "(" ∈ pooledExclusions (findSyncEntriesForTarget Scenario.optsBare "repo:tag")
  ∧ @Compile Fixture.externals "(" = Err "missing closing )"
  ∧ cleanupTags (Ext:=Fixture.externals) Scenario.optsBare Fixture.regOld
      Scenario.ruleBare "repo:tag"
    = @Build_Outcome Fixture.externals (Fixture.tick Fixture.regOld) [] None.
Proof. repeat split; try reflexivity. left. Qed.

Lemma cleanupTags_cancellation_witness :
  canceledBefore (Ext:=Fixture.externals) Fixture.tgtRef
    (Fixture.tick Fixture.regCancel) ["a"; "b"; "c"] 2
  ∧ result (cleanupTags (Ext:=Fixture.externals) Scenario.optsAB
              Fixture.regCancel Scenario.ruleA "repo:tag")
    = Some (Join [FailedToDeleteTag (H:=Fixture.externals) "repo:tag" "a" "denied";
                  ErrCanceled]).
Proof.
  assert (Hc : canceledBefore (Ext:=Fixture.externals) Fixture.tgtRef
                 (Fixture.tick Fixture.regCancel) ["a"; "b"; "c"] 2).
  { split; [simpl; lia|]. split; [|reflexivity].
    intros [|[|j]] Hj; [reflexivity|reflexivity|lia]. }
  split; [exact Hc|].
  exact (proj1 (proj2 (proj2 (cleanupTags_cancellation (Ext:=Fixture.externals)
    Scenario.optsAB Fixture.regCancel Scenario.ruleA "repo:tag"
    (Fixture.tick Fixture.regCancel) Fixture.tgtRef ["a"; "b"; "c"] 2
    eq_refl Hc)))).
Defined.

Lemma cleanupTags_failure_isolation_witness :
  neverCanceled (Ext:=Fixture.externals) Fixture.tgtRef
    (Fixture.tick Fixture.regRefuse) ["a"; "b"; "c"]
  ∧ (issued (cleanupTags (Ext:=Fixture.externals) Scenario.optsAB
               Fixture.regRefuse Scenario.ruleA "repo:tag")).*1 = ["a"; "b"; "c"]
  ∧ result (cleanupTags (Ext:=Fixture.externals) Scenario.optsAB
              Fixture.regRefuse Scenario.ruleA "repo:tag")
    = Some (Join [FailedToDeleteTag (H:=Fixture.externals) "repo:tag" "b" "denied"]).
Proof.
  assert (Hn : neverCanceled (Ext:=Fixture.externals) Fixture.tgtRef
                 (Fixture.tick Fixture.regRefuse) ["a"; "b"; "c"]).
  { intros [|[|[|j]]] Hj; [reflexivity..|simpl in Hj; lia]. }
  split; [exact Hn|].
  pose proof (cleanupTags_failure_isolation (Ext:=Fixture.externals)
    Scenario.optsAB Fixture.regRefuse Scenario.ruleA "repo:tag"
    (Fixture.tick Fixture.regRefuse) Fixture.tgtRef ["a"; "b"; "c"]
    eq_refl Hn) as (H1 & _ & H3 & _).
  split; [exact H1|exact H3].
Defined.

(** The context is done from the start, every tag is wanted, and the cleanup
    still returns nil. *)
Lemma cleanupTags_nothing_scheduled_witness :
  @ctxDone Fixture.externals Fixture.regDone = true
  ∧ result (cleanupTags (Ext:=Fixture.externals) Scenario.optsAB
              Fixture.regDone Scenario.ruleA "repo:tag") = None.
Proof.
  split; [reflexivity|].
  exact (f_equal result (proj1 (cleanupTags_nothing_scheduled
    (Ext:=Fixture.externals) Scenario.optsAB Fixture.regDone Scenario.ruleA
    "repo:tag") (Fixture.tick Fixture.regDone) Fixture.tgtRef eq_refl)).
Defined.

(** ** Further properties of the exclusion check *)
Section ExclusionCheck.
Context `{Ext : Externals}.

(** X5.  The check reports a match with [pattern] exactly when [pattern] is
    the first pattern of the list that matches the tag and every pattern
    before it compiled; what follows it in the list is never looked at. *)
Theorem matchesExclusionPattern_match_iff (tag : string)
    (patterns : list string) (pattern : string) :
  matchesExclusionPattern tag patterns = Ok (true, pattern) ↔
  ∃ before after exp,
    patterns = before ++ pattern :: after
    ∧ (∀ q, q ∈ before → ∃ e, Compile q = Ok e ∧ MatchString e tag = false)
    ∧ Compile pattern = Ok exp ∧ MatchString exp tag = true.
Proof.
  split.
  - induction patterns as [|p rest IH]; simpl; [done|].
    destruct (Compile p) as [exp|err] eqn:Hc; [|done].
    destruct (MatchString exp tag) eqn:Hm.
    + intros [= <-]. exists [], rest, exp. repeat split; try done.
      intros q Hq. by apply elem_of_nil in Hq.
    + intros H. destruct (IH H) as (before & after & exp' & -> & Hb & Hc' & Hm').
      exists (p :: before), after, exp'. repeat split; try done.
      intros q Hq. apply elem_of_cons in Hq as [->|Hq]; [by exists exp|by apply Hb].
  - intros (before & after & exp & -> & Hb & Hc & Hm).
    induction before as [|q before IH]; simpl.
    + by rewrite Hc, Hm.
    + destruct (Hb q) as (e & -> & ->); [left|].
      apply IH. intros q' Hq'. apply Hb. by right.
Qed.

(** A check that reports no match compiled every pattern and matched
    none. *)
Lemma matchesExclusionPattern_none tag patterns pattern :
  matchesExclusionPattern tag patterns = Ok (false, pattern) →
  pattern = ""
  ∧ ∀ q, q ∈ patterns → ∃ e, Compile q = Ok e ∧ MatchString e tag = false.
Proof.
  induction patterns as [|p rest IH]; simpl.
  - intros [= <-]. split; [done|]. intros q Hq. by apply elem_of_nil in Hq.
  - destruct (Compile p) as [exp|err] eqn:Hc; [|done].
    destruct (MatchString exp tag) eqn:Hm; [done|].
    intros H. destruct (IH H) as [-> Hall]. split; [done|].
    intros q Hq. apply elem_of_cons in Hq as [->|Hq]; [by exists exp|by apply Hall].
Qed.

(** X6.  The check reports no match exactly when every pattern of the list
    compiles and none matches the tag; the pattern returned is then empty. *)
Theorem matchesExclusionPattern_nomatch_iff (tag : string)
    (patterns : list string) (pattern : string) :
  matchesExclusionPattern tag patterns = Ok (false, pattern) ↔
  pattern = ""
  ∧ ∀ q, q ∈ patterns → ∃ e, Compile q = Ok e ∧ MatchString e tag = false.
Proof.
  split; [apply matchesExclusionPattern_none|].
  intros [-> Hall]. induction patterns as [|p rest IH]; simpl; [done|].
  destruct (Hall p) as (e & -> & ->); [left|].
  apply IH. intros q Hq. apply Hall. by right.
Qed.

(** The flag of a successful check is [excluded]. *)
Lemma matchesExclusionPattern_flag tag patterns b pattern :
  matchesExclusionPattern tag patterns = Ok (b, pattern) →
  b = excluded patterns tag.
Proof.
  induction patterns as [|p rest IH]; simpl; [by intros [= <- _]|].
  unfold matchesPattern. destruct (Compile p) as [exp|err]; [|done].
  destruct (MatchString exp tag); simpl; [by intros [= <- _]|apply IH].
Qed.

(** Whenever the classification succeeds, what it schedules is the listed
    tags, in order, that are not wanted and match no pattern; and the check
    succeeded on every listed tag that is not wanted. *)
Lemma classify_scheduled wantedTags patterns tTagsList : ∀ tagsToDelete scheduled,
  classify wantedTags patterns tTagsList tagsToDelete = Ok scheduled →
  scheduled = tagsToDelete
              ++ filter (λ tag, ¬ (tag ∈ wantedTags)
                                ∧ excluded patterns tag = false) tTagsList
  ∧ ∀ tag, tag ∈ tTagsList → ¬ (tag ∈ wantedTags) →
      ∃ pattern, matchesExclusionPattern tag patterns
                 = Ok (excluded patterns tag, pattern).
Proof.
  induction tTagsList as [|tag rest IH]; intros acc l; simpl.
  - intros [= <-]. rewrite app_nil_r. split; [done|].
    intros t Ht. by apply elem_of_nil in Ht.
  - rewrite filter_cons. case_bool_decide as Hin.
    + rewrite decide_False by tauto. intros H. destruct (IH _ _ H) as [-> Hm].
      split; [done|]. intros t Ht Hnot.
      apply elem_of_cons in Ht as [->|Ht]; [done|by apply Hm].
    + destruct (matchesExclusionPattern tag patterns) as [[b p]|e] eqn:Hcheck;
        [|done].
      pose proof (matchesExclusionPattern_flag _ _ _ _ Hcheck) as ->.
      destruct (excluded patterns tag) eqn:Hex.
      * rewrite decide_False by (intros [_ ?]; done). intros H.
        destruct (IH _ _ H) as [-> Hm]. split; [done|]. intros t Ht Hnot.
        apply elem_of_cons in Ht as [->|Ht];
          [exists p; by rewrite Hex|by apply Hm].
      * rewrite decide_True by done. intros H.
        destruct (IH _ _ H) as [-> Hm]. rewrite <- (assoc_L (++)).
        split; [done|]. intros t Ht Hnot.
        apply elem_of_cons in Ht as [->|Ht];
          [exists p; by rewrite Hex|by apply Hm].
Qed.

End ExclusionCheck.

(** ** What a successful plan tells *)
Section PlanFacts.
Context `{Ext : Externals}.

Lemma wantedOfSets_inv sets tTagsList : ∀ wantedTags wantedTags',
  wantedOfSets sets tTagsList wantedTags = Ok wantedTags' →
  ∀ set, set ∈ sets → ∃ filteredCur, filterTagList set tTagsList = Ok filteredCur.
Proof.
  induction sets as [|set rest IH]; intros w w' H set' Hin;
    [by apply elem_of_nil in Hin|].
  simpl in H. destruct (filterTagList set tTagsList) as [cur|err] eqn:Hcur; [|done].
  apply elem_of_cons in Hin as [->|Hin]; [by exists cur|by eapply IH].
Qed.

Lemma wantedOfEntries_inv syncEntries tTagsList : ∀ wantedTags b r,
  wantedOfEntries syncEntries tTagsList wantedTags b = Ok r →
  ∀ syncEntry set, syncEntry ∈ syncEntries → set ∈ setsOf syncEntry →
    ∃ filteredCur, filterTagList set tTagsList = Ok filteredCur.
Proof.
  induction syncEntries as [|e rest IH]; intros w b r H e' set Hin Hset;
    [by apply elem_of_nil in Hin|].
  simpl in H. case_bool_decide as Hlen.
  - destruct (wantedOfSets (setsOf e) tTagsList w) as [w1|err] eqn:Hs; [|done].
    apply elem_of_cons in Hin as [->|Hin]; [by eapply wantedOfSets_inv|].
    by eapply IH.
  - apply elem_of_cons in Hin as [->|Hin]; [|by eapply IH].
    destruct (setsOf e); [by apply elem_of_nil in Hset|simpl in Hlen; lia].
Qed.

(** The wanted tags are computed only when every filter set of every entry
    applied without error. *)
Lemma computeWanted_inv syncEntries tTagsList wantedTags :
  computeWanted syncEntries tTagsList = Ok wantedTags →
  ∀ syncEntry set, syncEntry ∈ syncEntries → set ∈ setsOf syncEntry →
    ∃ filteredCur, filterTagList set tTagsList = Ok filteredCur.
Proof.
  unfold computeWanted.
  destruct (wantedOfEntries syncEntries tTagsList [] true) as [r|e] eqn:H; [|done].
  intros _. by eapply wantedOfEntries_inv.
Qed.

Lemma wantedOfSets_Err_origin sets tTagsList : ∀ wantedTags e,
  wantedOfSets sets tTagsList wantedTags = Err e →
  ∃ set err, set ∈ sets ∧ filterTagList set tTagsList = Err err
             ∧ e = External err.
Proof.
  induction sets as [|set rest IH]; intros w e; simpl; [done|].
  destruct (filterTagList set tTagsList) as [cur|err] eqn:Hcur.
  - intros H. destruct (IH _ _ H) as (set' & err & Hin & Hf & ->).
    exists set', err. split; [by right|done].
  - intros [= <-]. exists set, err. split; [left|done].
Qed.

Lemma wantedOfEntries_Err_origin syncEntries tTagsList : ∀ wantedTags b e,
  wantedOfEntries syncEntries tTagsList wantedTags b = Err e →
  ∃ syncEntry set err, syncEntry ∈ syncEntries ∧ set ∈ setsOf syncEntry
    ∧ filterTagList set tTagsList = Err err ∧ e = External err.
Proof.
  induction syncEntries as [|entry rest IH]; intros w b e; simpl; [done|].
  case_bool_decide as Hlen.
  - destruct (wantedOfSets (setsOf entry) tTagsList w) as [w1|e1] eqn:Hs.
    + intros H. destruct (IH _ _ _ H) as (e' & set & err & Hin & Hset & Hf & ->).
      exists e', set, err. split; [by right|done].
    + intros [= <-].
      destruct (wantedOfSets_Err_origin _ _ _ _ Hs) as (set & err & Hset & Hf & ->).
      exists entry, set, err. split; [left|done].
  - intros H. destruct (IH _ _ _ H) as (e' & set & err & Hin & Hset & Hf & ->).
    exists e', set, err. split; [by right|done].
Qed.

(** A listing has one outcome. *)
Lemma listed_inj w tgt tgtRef w1 tTagsList tgtRef' w1' tTagsList' :
  listed w tgt tgtRef w1 tTagsList → listed w tgt tgtRef' w1' tTagsList' →
  tgtRef' = tgtRef ∧ w1' = w1 ∧ tTagsList' = tTagsList.
Proof.
  intros (Href & tTags & Hlist & Hget) (Href' & tTags' & Hlist' & Hget').
  rewrite Href in Href'. injection Href' as <-.
  rewrite Hlist in Hlist'. injection Hlist' as <- <-.
  rewrite Hget in Hget'. by injection Hget' as <-.
Qed.

(** A plan that schedules deletions went through every stage. *)
Lemma plan_Ok_inv opts w tgt w1 tgtRef tagsToDelete :
  plan opts w tgt = (w1, Ok (tgtRef, tagsToDelete)) →
  ∃ tTagsList wantedTags,
    listed w tgt tgtRef w1 tTagsList
    ∧ computeWanted (findSyncEntriesForTarget opts tgt) tTagsList = Ok wantedTags
    ∧ classify wantedTags (allExclusionPatterns (findSyncEntriesForTarget opts tgt))
        tTagsList [] = Ok tagsToDelete.
Proof.
  intros Hplan. destruct (plan_Ok_listed _ _ _ _ _ _ Hplan) as [tTagsList Hl].
  rewrite (plan_listed _ _ _ _ _ _ Hl) in Hplan.
  destruct (computeWanted _ tTagsList) as [wantedTags|e] eqn:Hw; [|done].
  destruct (classify wantedTags _ tTagsList []) as [tags|e] eqn:Hc; [|done].
  injection Hplan as <-. by exists tTagsList, wantedTags.
Qed.

(** Among entries that do not all lack filter sets, one has a filter set. *)
Lemma some_filter_set (syncEntries : list ConfigSync) :
  ¬ (∀ syncEntry, syncEntry ∈ syncEntries → noFilterSets syncEntry) →
  ∃ syncEntry, syncEntry ∈ syncEntries ∧ ¬ noFilterSets syncEntry.
Proof.
  induction syncEntries as [|e rest IH]; intros Hnot.
  - destruct Hnot. intros e He. by apply elem_of_nil in He.
  - destruct (setsOf e) as [|set sets] eqn:Hsets.
    + destruct IH as (e' & He' & Hne).
      * intros Hall. apply Hnot. intros e' He'.
        apply elem_of_cons in He' as [->|He']; [by apply setsOf_nil|by apply Hall].
      * exists e'. split; [by right|done].
    + exists e. split; [left|]. intros Hn. apply setsOf_nil in Hn. congruence.
Qed.

(** The wanted tags, however they were computed: the whole listing when no
    entry has a filter set, and otherwise a list with the members of the
    union. *)
Lemma computeWanted_cases syncEntries tTagsList wantedTags :
  computeWanted syncEntries tTagsList = Ok wantedTags →
  ((∀ syncEntry, syncEntry ∈ syncEntries → noFilterSets syncEntry)
   ∧ wantedTags = tTagsList)
  ∨ ((∃ syncEntry, syncEntry ∈ syncEntries ∧ ¬ noFilterSets syncEntry)
     ∧ ∀ tag, tag ∈ wantedTags ↔ tag ∈ unionWanted syncEntries tTagsList).
Proof.
  intros Hw. pose proof (computeWanted_inv _ _ _ Hw) as Hfilters.
  unfold computeWanted in Hw.
  destruct (wantedOfEntries_Ok syncEntries tTagsList [] true Hfilters)
    as (w' & b' & Heq & Hmem & Hb).
  rewrite Heq in Hw. injection Hw as <-. destruct b'.
  - left. split; [by apply Hb|done].
  - right. split.
    + apply some_filter_set. intros Hall. destruct Hb as [_ Hb].
      by discriminate Hb.
    + intros tag. rewrite Hmem, elem_of_nil. tauto.
Qed.

End PlanFacts.

(** ** Further configurations *)
Module MoreScenarios.

(** The first rule of the union scenario alone. *)
Definition optsA : rootOpts := {| conf := {| Sync := [Scenario.ruleA] |} |}.

(** A rule on another target, which would keep [old]. *)
Definition ruleElsewhere : ConfigSync :=
  {| Target := "other:tag"; Tags := Scenario.allowOnly "^old$"; TagSets := [];
     CleanupTagsExclude := ["^latest$"] |}.

Definition optsMixed : rootOpts :=
  {| conf := {| Sync := [Scenario.ruleA; ruleElsewhere; Scenario.ruleB] |} |}.

(** A rule whose allow list holds a malformed pattern, next to rule A. *)
Definition ruleBrokenFilter : ConfigSync :=
  {| Target := "repo:tag"; Tags := Scenario.allowOnly "("; TagSets := [];
     CleanupTagsExclude := [] |}.

Definition optsBrokenFilter : rootOpts :=
  {| conf := {| Sync := [Scenario.ruleA; ruleBrokenFilter] |} |}.

(** The two rules of the union scenario in the other order. *)
Definition optsBA : rootOpts :=
  {| conf := {| Sync := [Scenario.ruleB; Scenario.ruleA] |} |}.

End MoreScenarios.

(** ** What the cleanup never deletes, and in which order it deletes *)
Section Safety.
Context `{Ext : Externals}.

Lemma excluded_true patterns tag :
  excluded patterns tag = true ↔
  ∃ pattern, pattern ∈ patterns ∧ matchesPattern tag pattern = true.
Proof.
  unfold excluded. rewrite existsb_exists.
  split; intros (p & Hp & Hm); exists p; split; try done; by apply list_elem_of_In.
Qed.

(** The tags of the deletions issued are among the tags scheduled. *)
Lemma issued_scheduled opts w s tgt w1 tgtRef tagsToDelete :
  plan opts w tgt = (w1, Ok (tgtRef, tagsToDelete)) →
  (issued (cleanupTags opts w s tgt)).*1
  = take (issuedCount tgtRef w1 tagsToDelete) tagsToDelete.
Proof.
  intros Hplan. unfold cleanupTags. rewrite Hplan, deleteTags_closed. simpl.
  by rewrite answers_tags.
Qed.

(** X1.  Whatever happens during a cleanup, a deletion is only ever issued
    for a tag of the listing that survives no filter set of any sync entry on
    the target and that no exclusion pattern of any such entry matches, all
    those patterns having compiled; and only when some entry on the target
    has a filter set. *)
Theorem cleanupTags_never_deletes_kept opts w s tgt a :
  a ∈ issued (cleanupTags opts w s tgt) →
  ∃ tgtRef w1 tTagsList,
    listed w tgt tgtRef w1 tTagsList
    ∧ a.1 ∈ tTagsList
    ∧ ¬ (a.1 ∈ unionWanted (findSyncEntriesForTarget opts tgt) tTagsList)
    ∧ (∀ q, q ∈ pooledExclusions (findSyncEntriesForTarget opts tgt) →
         ∃ e, Compile q = Ok e ∧ MatchString e a.1 = false)
    ∧ ∃ syncEntry, syncEntry ∈ findSyncEntriesForTarget opts tgt
                   ∧ ¬ noFilterSets syncEntry.
Proof.
  intros Ha.
  destruct (plan opts w tgt) as [w1 [[tgtRef tags]|e]] eqn:Hplan.
  2: { unfold cleanupTags in Ha. rewrite Hplan in Ha. by apply elem_of_nil in Ha. }
  assert (Hin : a.1 ∈ tags).
  { apply (subseteq_take (issuedCount tgtRef w1 tags)).
    rewrite <- (issued_scheduled opts w s tgt w1 tgtRef tags Hplan).
    by apply list_elem_of_fmap_2. }
  destruct (plan_Ok_inv _ _ _ _ _ _ Hplan) as (tTagsList & wantedTags & Hl & Hw & Hc).
  destruct (classify_scheduled _ _ _ _ _ Hc) as [Htags Hchecks].
  simpl in Htags. rewrite Htags in Hin.
  apply list_elem_of_filter in Hin as [[Hnot Hex] Hlisted].
  exists tgtRef, w1, tTagsList. split; [done|]. split; [done|].
  destruct (computeWanted_cases _ _ _ Hw) as [[_ ->]|[Hsome Hmem]]; [done|].
  split; [by rewrite <- Hmem|]. split; [|done].
  destruct (Hchecks _ Hlisted Hnot) as [p Hp]. rewrite Hex in Hp.
  apply matchesExclusionPattern_none in Hp as [_ Hall].
  by rewrite <- allExclusionPatterns_pooled.
Qed.

(** X2.  The deletions are issued in the order of the tag listing, each
    listed occurrence at most once. *)
Theorem cleanupTags_listing_order opts w s tgt tgtRef w1 tTagsList :
  listed w tgt tgtRef w1 tTagsList →
  (issued (cleanupTags opts w s tgt)).*1 `sublist_of` tTagsList.
Proof.
  intros Hl.
  destruct (plan opts w tgt) as [w1' [[tgtRef' tags]|e]] eqn:Hplan.
  2: { unfold cleanupTags. rewrite Hplan. simpl. apply sublist_nil_l. }
  rewrite (issued_scheduled _ _ _ _ _ _ _ Hplan).
  destruct (plan_Ok_inv _ _ _ _ _ _ Hplan) as (tTagsList' & wantedTags & Hl' & _ & Hc).
  destruct (listed_inj _ _ _ _ _ _ _ _ Hl Hl') as (_ & _ & ->).
  destruct (classify_scheduled _ _ _ _ _ Hc) as [-> _]. simpl.
  etrans; [apply sublist_take|apply sublist_filter].
Qed.

(** X3.  The value a cleanup returns is nil, or one error raised before any
    deletion (an error of a collaborator, or a pooled exclusion pattern that
    does not compile), or the joined failures of the deletions issued, in
    order, followed by [ErrCanceled] when the loop stopped early. *)
Theorem cleanupTags_result_shape opts w s tgt :
  result (cleanupTags opts w s tgt) = None
  ∨ (∃ err, result (cleanupTags opts w s tgt) = Some (External err)
            ∧ issued (cleanupTags opts w s tgt) = [])
  ∨ (∃ pattern err,
       result (cleanupTags opts w s tgt)
       = Some (InvalidExclusionPattern pattern err)
       ∧ issued (cleanupTags opts w s tgt) = []
       ∧ pattern ∈ pooledExclusions (findSyncEntriesForTarget opts tgt)
       ∧ Compile pattern = Err err)
  ∨ (∃ tgtRef, ref_New tgt = Ok tgtRef
       ∧ failuresOf tgtRef (issued (cleanupTags opts w s tgt)) ≠ []
       ∧ result (cleanupTags opts w s tgt)
         = Some (Join (failuresOf tgtRef (issued (cleanupTags opts w s tgt)))))
  ∨ (∃ tgtRef, ref_New tgt = Ok tgtRef
       ∧ result (cleanupTags opts w s tgt)
         = Some (Join (failuresOf tgtRef (issued (cleanupTags opts w s tgt))
                       ++ [ErrCanceled]))).
Proof.
  destruct (plan opts w tgt) as [w1 [[tgtRef tags]|e]] eqn:Hplan.
  - destruct (plan_Ok_listed _ _ _ _ _ _ Hplan) as (tTagsList & Href & _).
    unfold cleanupTags. rewrite Hplan, deleteTags_closed. simpl.
    case_bool_decide.
    + do 4 right. exists tgtRef. split; [done|]. by rewrite errors_Join_snoc.
    + rewrite app_nil_r.
      destruct (failuresOf tgtRef _) as [|f fs] eqn:Hf; [by left|].
      do 3 right. left. exists tgtRef. by rewrite Hf.
  - unfold cleanupTags. rewrite Hplan. simpl.
    destruct (plan_Err _ _ _ _ _ Hplan) as [(err & ->)|(p & err & Hp & Hc & ->)].
    + right. left. by exists err.
    + do 2 right. left. exists p, err. rewrite <- allExclusionPatterns_pooled.
      done.
Qed.

(** X4.  A cleanup returns nil exactly when it reached the deletion loop,
    issued every scheduled deletion, and the registry refused none. *)
Theorem cleanupTags_nil_complete opts w s tgt :
  result (cleanupTags opts w s tgt) = None ↔
  ∃ w1 tgtRef tagsToDelete,
    plan opts w tgt = (w1, Ok (tgtRef, tagsToDelete))
    ∧ (issued (cleanupTags opts w s tgt)).*1 = tagsToDelete
    ∧ ∀ a, a ∈ issued (cleanupTags opts w s tgt) → a.2 = None.
Proof.
  split.
  - destruct (plan opts w tgt) as [w1 [[tgtRef tags]|e]] eqn:Hplan.
    2: { unfold cleanupTags. by rewrite Hplan. }
    intros Hres. exists w1, tgtRef, tags. split; [done|].
    rewrite (issued_scheduled _ _ _ _ _ _ _ Hplan).
    unfold cleanupTags in *. rewrite Hplan, deleteTags_closed in *. simpl in *.
    apply errors_Join_None, app_eq_nil in Hres as [Hf Hc].
    case_bool_decide as Hlt; [done|].
    pose proof (issuedCount_le tgtRef w1 tags).
    split; [apply firstn_all2; lia|]. by apply (failuresOf_nil tgtRef).
  - intros (w1 & tgtRef & tags & Hplan & Hall & Hnone).
    rewrite (issued_scheduled _ _ _ _ _ _ _ Hplan) in Hall.
    unfold cleanupTags in *. rewrite Hplan, deleteTags_closed in *. simpl in *.
    apply errors_Join_None. apply (failuresOf_nil tgtRef) in Hnone.
    rewrite Hnone. rewrite bool_decide_eq_false_2; [done|].
    intros Hlt. apply (f_equal length) in Hall. rewrite length_take in Hall. lia.
Qed.

End Safety.

(** ** How the configuration bears on a cleanup *)
Section ConfigurationFacts.
Context `{Ext : Externals}.

(** X7.  A sync entry on another target has no bearing on the cleanup of
    this target: the outcome is the one of the configuration without it. *)
Theorem cleanupTags_other_targets before other after w s tgt :
  Target other ≠ tgt →
  cleanupTags {| conf := {| Sync := before ++ other :: after |} |} w s tgt
  = cleanupTags {| conf := {| Sync := before ++ after |} |} w s tgt.
Proof.
  intros Hne.
  assert (Heq : findSyncEntriesForTarget
                  {| conf := {| Sync := before ++ other :: after |} |} tgt
                = findSyncEntriesForTarget
                    {| conf := {| Sync := before ++ after |} |} tgt).
  { unfold findSyncEntriesForTarget. simpl.
    by rewrite !filter_app, filter_cons, decide_False. }
  unfold cleanupTags, plan. by rewrite Heq.
Qed.

(** X8.  When, after a successful listing, some filter set of some sync
    entry on the target fails to apply, the cleanup returns the error of a
    failing filter set as it is and issues no deletion. *)
Theorem cleanupTags_filter_error opts w s tgt tgtRef w1 tTagsList syncEntry set err :
  listed w tgt tgtRef w1 tTagsList →
  syncEntry ∈ findSyncEntriesForTarget opts tgt →
  set ∈ setsOf syncEntry →
  filterTagList set tTagsList = Err err →
  ∃ syncEntry' set' err',
    syncEntry' ∈ findSyncEntriesForTarget opts tgt
    ∧ set' ∈ setsOf syncEntry'
    ∧ filterTagList set' tTagsList = Err err'
    ∧ cleanupTags opts w s tgt
      = {| world := w1; issued := []; result := Some (External err') |}.
Proof.
  intros Hl Hin Hset Hf. unfold cleanupTags. rewrite (plan_listed _ _ _ _ _ _ Hl).
  destruct (computeWanted _ tTagsList) as [wantedTags|e] eqn:Hw.
  - destruct (computeWanted_inv _ _ _ Hw _ _ Hin Hset) as [cur Hcur]. congruence.
  - unfold computeWanted in Hw.
    destruct (wantedOfEntries _ tTagsList [] true) as [[w' b']|e'] eqn:Hwe; [done|].
    injection Hw as <-.
    destruct (wantedOfEntries_Err_origin _ _ _ _ _ Hwe)
      as (e1 & set1 & err1 & Hin1 & Hset1 & Hf1 & ->).
    by exists e1, set1, err1.
Qed.

Lemma NoDup_addUnique filteredCur : ∀ wantedTags,
  NoDup wantedTags → NoDup (addUnique wantedTags filteredCur).
Proof.
  induction filteredCur as [|tag rest IH]; intros w Hw; simpl; [done|].
  case_bool_decide as Hin; apply IH; [done|].
  apply NoDup_app. split; [done|]. split; [|apply NoDup_singleton].
  intros x Hx Hx'. apply list_elem_of_singleton in Hx' as ->. done.
Qed.

Lemma NoDup_wantedOfSets sets tTagsList : ∀ wantedTags wantedTags',
  NoDup wantedTags →
  wantedOfSets sets tTagsList wantedTags = Ok wantedTags' → NoDup wantedTags'.
Proof.
  induction sets as [|set rest IH]; intros w w' Hw; simpl; [by intros [= <-]|].
  destruct (filterTagList set tTagsList) as [cur|err]; [|done].
  apply IH. by apply NoDup_addUnique.
Qed.

Lemma NoDup_wantedOfEntries syncEntries tTagsList : ∀ wantedTags b wantedTags' b',
  NoDup wantedTags →
  wantedOfEntries syncEntries tTagsList wantedTags b = Ok (wantedTags', b') →
  NoDup wantedTags'.
Proof.
  induction syncEntries as [|e rest IH]; intros w b w' b' Hw; simpl;
    [by intros [= <- _]|].
  case_bool_decide; [|by apply IH].
  destruct (wantedOfSets (setsOf e) tTagsList w) as [w1|err] eqn:Hs; [|done].
  apply IH. by eapply NoDup_wantedOfSets.
Qed.

(** X9.  When some sync entry has a filter set and the wanted tags are
    computed, they hold every survivor of every filter set of every entry,
    and nothing else, each once, however the results of the filters
    overlap. *)
Theorem computeWanted_union_once syncEntries tTagsList wantedTags :
  computeWanted syncEntries tTagsList = Ok wantedTags →
  (∃ syncEntry, syncEntry ∈ syncEntries ∧ ¬ noFilterSets syncEntry) →
  NoDup wantedTags
  ∧ ∀ tag, tag ∈ wantedTags ↔
      ∃ syncEntry set filteredCur,
        syncEntry ∈ syncEntries ∧ set ∈ setsOf syncEntry
        ∧ filterTagList set tTagsList = Ok filteredCur ∧ tag ∈ filteredCur.
Proof.
  intros Hw (e & He & Hne).
  destruct (computeWanted_cases _ _ _ Hw) as [[Hall _]|[_ Hmem]];
    [by destruct (Hne (Hall e He))|].
  split.
  - unfold computeWanted in Hw.
    destruct (wantedOfEntries syncEntries tTagsList [] true) as [[w' b']|e'] eqn:Hwe;
      [|done].
    pose proof (NoDup_wantedOfEntries _ _ _ _ _ _ (NoDup_nil_2) Hwe) as Hnd.
    injection Hw as <-. destruct b'; [|done].
    destruct (wantedOfEntries_Ok _ _ [] true (wantedOfEntries_inv _ _ _ _ _ Hwe))
      as (w2 & b2 & Heq & _ & Hb).
    rewrite Hwe in Heq. injection Heq as <- <-.
    destruct Hb as [Hb _]. destruct (Hne (proj2 (Hb eq_refl) e He)).
  - intros tag. rewrite Hmem. unfold unionWanted.
    rewrite list_elem_of_bind. split.
    + intros (e1 & Hin & He1). apply list_elem_of_bind in Hin as (set & Hin & Hset).
      unfold survivors in Hin.
      destruct (filterTagList set tTagsList) as [cur|err] eqn:Hcur;
        [|by apply elem_of_nil in Hin].
      by exists e1, set, cur.
    + intros (e1 & set & cur & He1 & Hset & Hcur & Hin). exists e1.
      split; [|done]. apply list_elem_of_bind. exists set. split; [|done].
      unfold survivors. by rewrite Hcur.
Qed.

(** X10.  Once some sync entry on the target has a filter set, further
    entries on the target can only spare tags: what is scheduled with them is
    part of what is scheduled without them, in the same order. *)
Theorem plan_more_rules opts opts' w tgt w1 tgtRef tags w1' tgtRef' tags' :
  (∀ syncEntry, syncEntry ∈ findSyncEntriesForTarget opts tgt →
     syncEntry ∈ findSyncEntriesForTarget opts' tgt) →
  (∃ syncEntry, syncEntry ∈ findSyncEntriesForTarget opts tgt
                ∧ ¬ noFilterSets syncEntry) →
  plan opts w tgt = (w1, Ok (tgtRef, tags)) →
  plan opts' w tgt = (w1', Ok (tgtRef', tags')) →
  tags' `sublist_of` tags.
Proof.
  intros Hsub (e & He & Hne) Hplan Hplan'.
  destruct (plan_Ok_inv _ _ _ _ _ _ Hplan) as (l & wanted & Hl & Hw & Hc).
  destruct (plan_Ok_inv _ _ _ _ _ _ Hplan') as (l' & wanted' & Hl' & Hw' & Hc').
  destruct (listed_inj _ _ _ _ _ _ _ _ Hl Hl') as (_ & _ & ->).
  destruct (classify_scheduled _ _ _ _ _ Hc) as [-> _].
  destruct (classify_scheduled _ _ _ _ _ Hc') as [-> _]. simpl.
  rewrite !allExclusionPatterns_pooled.
  destruct (computeWanted_cases _ _ _ Hw) as [[Hall _]|[_ Hmem]];
    [by destruct (Hne (Hall e He))|].
  destruct (computeWanted_cases _ _ _ Hw') as [[Hall _]|[_ Hmem']];
    [by destruct (Hne (Hall e (Hsub e He)))|].
  set (P := λ tag, ¬ (tag ∈ wanted)
      ∧ excluded (pooledExclusions (findSyncEntriesForTarget opts tgt)) tag = false).
  set (P' := λ tag, ¬ (tag ∈ wanted')
      ∧ excluded (pooledExclusions (findSyncEntriesForTarget opts' tgt)) tag = false).
  assert (Himp : ∀ tag, P' tag → P tag).
  { intros tag [Hnot Hex]. split.
    - intros Hin. apply Hnot. apply Hmem'. apply Hmem in Hin.
      unfold unionWanted in *. apply list_elem_of_bind in Hin as (e1 & Hin & He1).
      apply list_elem_of_bind. exists e1. split; [done|by apply Hsub].
    - destruct (excluded (pooledExclusions (findSyncEntriesForTarget opts tgt)) tag)
        eqn:Hex1; [|done].
      apply excluded_true in Hex1 as (p & Hp & Hm).
      assert (Hex' : excluded (pooledExclusions (findSyncEntriesForTarget opts' tgt))
                       tag = true).
      { apply excluded_true. exists p. split; [|done].
        unfold pooledExclusions in *. apply list_elem_of_bind in Hp as (e1 & Hp & He1).
        apply list_elem_of_bind. exists e1. split; [done|by apply Hsub]. }
      congruence. }
  replace (filter P' l) with (filter P' (filter P l)); [apply sublist_filter|].
  rewrite list_filter_filter. apply list_filter_iff. intros tag. split; [tauto|].
  intros HP'. split; [done|by apply Himp].
Qed.

(** X11.  The order in which the configuration lists the sync entries on
    the target has no bearing on a cleanup that reaches its deletion loop:
    two configurations with the same entries on the target, each planning
    without error, lead to the same outcome. *)
Theorem cleanupTags_entry_order opts opts' w s tgt w1 tgtRef tags w1' tgtRef' tags' :
  (∀ syncEntry, syncEntry ∈ findSyncEntriesForTarget opts tgt ↔
                syncEntry ∈ findSyncEntriesForTarget opts' tgt) →
  plan opts w tgt = (w1, Ok (tgtRef, tags)) →
  plan opts' w tgt = (w1', Ok (tgtRef', tags')) →
  tags' = tags ∧ cleanupTags opts' w s tgt = cleanupTags opts w s tgt.
Proof.
  intros Hsame Hplan Hplan'.
  assert (Htags : tags' = tags ∧ w1' = w1 ∧ tgtRef' = tgtRef).
  { destruct (plan_Ok_inv _ _ _ _ _ _ Hplan) as (l & wanted & Hl & Hw & Hc).
    destruct (plan_Ok_inv _ _ _ _ _ _ Hplan') as (l' & wanted' & Hl' & Hw' & Hc').
    destruct (listed_inj _ _ _ _ _ _ _ _ Hl Hl') as (-> & -> & ->).
    split; [|done].
    destruct (classify_scheduled _ _ _ _ _ Hc) as [-> _].
    destruct (classify_scheduled _ _ _ _ _ Hc') as [-> _]. simpl.
    rewrite !allExclusionPatterns_pooled. apply list_filter_iff. intros tag.
    assert (Hex : excluded (pooledExclusions (findSyncEntriesForTarget opts' tgt)) tag
                  = excluded (pooledExclusions (findSyncEntriesForTarget opts tgt)) tag).
    { apply eq_true_iff_eq. rewrite !excluded_true. unfold pooledExclusions.
      by setoid_rewrite list_elem_of_bind; setoid_rewrite Hsame. }
    rewrite Hex.
    assert (Hwanted : tag ∈ wanted' ↔ tag ∈ wanted); [|by rewrite Hwanted].
    destruct (computeWanted_cases _ _ _ Hw) as [[Hall ->]|[(e & He & Hne) Hmem]];
      destruct (computeWanted_cases _ _ _ Hw') as [[Hall' ->]|[(e' & He' & Hne') Hmem']].
    - done.
    - destruct (Hne' (Hall e' (proj2 (Hsame e') He'))).
    - destruct (Hne (Hall' e (proj1 (Hsame e) He))).
    - rewrite Hmem, Hmem'. unfold unionWanted.
      by setoid_rewrite list_elem_of_bind; setoid_rewrite Hsame. }
  destruct Htags as (-> & -> & ->). split; [done|].
  unfold cleanupTags. by rewrite Hplan, Hplan'.
Qed.

End ConfigurationFacts.

Lemma cleanupTags_never_deletes_kept_witness :
  ("old", None) ∈ issued (cleanupTags (Ext:=Fixture.externals) Scenario.optsAB
                            Fixture.regAB Scenario.ruleA "repo:tag")
  ∧ ∃ tgtRef w1 tTagsList,
      listed (Ext:=Fixture.externals) Fixture.regAB "repo:tag" tgtRef w1 tTagsList
      ∧ "old" ∈ tTagsList
      ∧ ¬ ("old" ∈ unionWanted (Ext:=Fixture.externals)
                     (findSyncEntriesForTarget Scenario.optsAB "repo:tag")
                     tTagsList)
      ∧ (∀ q, q ∈ pooledExclusions
                    (findSyncEntriesForTarget Scenario.optsAB "repo:tag") →
           ∃ e, @Compile Fixture.externals q = Ok e
                ∧ @MatchString Fixture.externals e "old" = false)
      ∧ ∃ syncEntry,
          syncEntry ∈ findSyncEntriesForTarget Scenario.optsAB "repo:tag"
          ∧ ¬ noFilterSets syncEntry.
Proof.
  assert (Ha : ("old", None)
               ∈ issued (cleanupTags (Ext:=Fixture.externals) Scenario.optsAB
                           Fixture.regAB Scenario.ruleA "repo:tag")) by left.
  split; [exact Ha|].
  exact (cleanupTags_never_deletes_kept (Ext:=Fixture.externals) Scenario.optsAB
           Fixture.regAB Scenario.ruleA "repo:tag" ("old", None) Ha).
Defined.

Lemma cleanupTags_listing_order_witness :
  listed (Ext:=Fixture.externals) Fixture.regCancel "repo:tag" Fixture.tgtRef
    (Fixture.tick Fixture.regCancel) ["a"; "stable"; "b"; "c"]
  ∧ (issued (cleanupTags (Ext:=Fixture.externals) Scenario.optsAB
               Fixture.regCancel Scenario.ruleA "repo:tag")).*1
    `sublist_of` ["a"; "stable"; "b"; "c"].
Proof.
  assert (Hl : listed (Ext:=Fixture.externals) Fixture.regCancel "repo:tag"
                 Fixture.tgtRef (Fixture.tick Fixture.regCancel)
                 ["a"; "stable"; "b"; "c"]).
  { split; [reflexivity|]. by exists ["a"; "stable"; "b"; "c"]. }
  split; [exact Hl|].
  exact (cleanupTags_listing_order (Ext:=Fixture.externals) Scenario.optsAB
           Fixture.regCancel Scenario.ruleA "repo:tag" Fixture.tgtRef
           (Fixture.tick Fixture.regCancel) ["a"; "stable"; "b"; "c"] Hl).
Defined.

Lemma cleanupTags_other_targets_witness :
  Target MoreScenarios.ruleElsewhere ≠ "repo:tag"
  ∧ cleanupTags (Ext:=Fixture.externals) MoreScenarios.optsMixed Fixture.regAB
      Scenario.ruleA "repo:tag"
    = cleanupTags (Ext:=Fixture.externals) Scenario.optsAB Fixture.regAB
        Scenario.ruleA "repo:tag".
Proof.
  assert (Hne : Target MoreScenarios.ruleElsewhere ≠ "repo:tag") by discriminate.
  split; [exact Hne|].
  exact (cleanupTags_other_targets (Ext:=Fixture.externals) [Scenario.ruleA]
           MoreScenarios.ruleElsewhere [Scenario.ruleB] Fixture.regAB
           Scenario.ruleA "repo:tag" Hne).
Defined.

Lemma cleanupTags_filter_error_witness :
  @filterTagList Fixture.externals (Scenario.allowOnly "(")
    ["stable"; "latest"; "old"] = Err "missing closing )"
  ∧ ∃ syncEntry' set' err',
      syncEntry' ∈ findSyncEntriesForTarget MoreScenarios.optsBrokenFilter "repo:tag"
      ∧ set' ∈ setsOf syncEntry'
      ∧ @filterTagList Fixture.externals set' ["stable"; "latest"; "old"] = Err err'
      ∧ cleanupTags (Ext:=Fixture.externals) MoreScenarios.optsBrokenFilter
          Fixture.regAB Scenario.ruleA "repo:tag"
        = @Build_Outcome Fixture.externals (Fixture.tick Fixture.regAB) []
            (Some (External err')).
Proof.
  split; [reflexivity|].
  refine (cleanupTags_filter_error (Ext:=Fixture.externals)
            MoreScenarios.optsBrokenFilter Fixture.regAB Scenario.ruleA "repo:tag"
            Fixture.tgtRef (Fixture.tick Fixture.regAB) ["stable"; "latest"; "old"]
            MoreScenarios.ruleBrokenFilter (Scenario.allowOnly "(")
            "missing closing )" _ _ _ eq_refl).
  - split; [reflexivity|]. by exists ["stable"; "latest"; "old"].
  - right. left.
  - left.
Defined.

Lemma computeWanted_union_once_witness :
  computeWanted (Ext:=Fixture.externals) [Scenario.ruleA; Scenario.ruleB]
    ["stable"; "latest"; "old"; "stable"] = Ok ["stable"; "latest"]
  ∧ NoDup ["stable"; "latest"].
Proof.
  split; [reflexivity|].
  refine (proj1 (computeWanted_union_once (Ext:=Fixture.externals)
            [Scenario.ruleA; Scenario.ruleB] ["stable"; "latest"; "old"; "stable"]
            ["stable"; "latest"] eq_refl _)).
  exists Scenario.ruleA. split; [left|]. intros (_ & H & _). discriminate H.
Defined.

Lemma plan_more_rules_witness :
  plan (Ext:=Fixture.externals) MoreScenarios.optsA Fixture.regAB "repo:tag"
  = (Fixture.tick Fixture.regAB, Ok (Fixture.tgtRef, ["latest"; "old"]))
  ∧ plan (Ext:=Fixture.externals) Scenario.optsAB Fixture.regAB "repo:tag"
    = (Fixture.tick Fixture.regAB, Ok (Fixture.tgtRef, ["old"]))
  ∧ ["old"] `sublist_of` ["latest"; "old"].
Proof.
  split; [reflexivity|]. split; [reflexivity|].
  refine (plan_more_rules (Ext:=Fixture.externals) MoreScenarios.optsA
            Scenario.optsAB Fixture.regAB "repo:tag"
            (Fixture.tick Fixture.regAB) Fixture.tgtRef ["latest"; "old"]
            (Fixture.tick Fixture.regAB) Fixture.tgtRef ["old"] _ _ eq_refl eq_refl).
  - intros e He. apply list_elem_of_singleton in He as ->. left.
  - exists Scenario.ruleA. split; [left|]. intros (_ & H & _). discriminate H.
Defined.

Lemma cleanupTags_entry_order_witness :
  plan (Ext:=Fixture.externals) Scenario.optsAB Fixture.regAB "repo:tag"
  = (Fixture.tick Fixture.regAB, Ok (Fixture.tgtRef, ["old"]))
  ∧ cleanupTags (Ext:=Fixture.externals) MoreScenarios.optsBA Fixture.regAB
      Scenario.ruleA "repo:tag"
    = cleanupTags (Ext:=Fixture.externals) Scenario.optsAB Fixture.regAB
        Scenario.ruleA "repo:tag".
Proof.
  split; [reflexivity|].
  refine (proj2 (cleanupTags_entry_order (Ext:=Fixture.externals) Scenario.optsAB
            MoreScenarios.optsBA Fixture.regAB Scenario.ruleA "repo:tag"
            (Fixture.tick Fixture.regAB) Fixture.tgtRef ["old"]
            (Fixture.tick Fixture.regAB) Fixture.tgtRef ["old"] _ eq_refl eq_refl)).
  intros e. split; intros He;
    apply elem_of_cons in He as [->|He];
    try apply list_elem_of_singleton in He as ->;
    first [left|right; left].
Defined.

End Regsync.

(** * types/descriptor

    The sources hold the tests of this package (TestCompare,
    TestGetDataDescriptor, TestListSearch, TestDigestAlgorithm) but not the
    functions they exercise.  The functions below are modelled from the
    specification and checked against the tables of those tests. *)
Module Descriptor.

(** Modelled from the spec: package [types/platform] is not among the
    sources; the fields are those of §3. *)
Module platform.

Record Platform : Type := {
  OS : string;
  Architecture : string;
  OSVersion : string;
  OSFeatures : list string;
  Variant : string;
}.

End platform.

(** Modelled from the spec: package [types/mediatype] is not among the
    sources; these are the media types the tests name and their layer and
    configuration siblings. *)
Module mediatype.

Definition Docker2Manifest : string :=
  "application/vnd.docker.distribution.manifest.v2+json".
Definition Docker2ManifestList : string :=
  "application/vnd.docker.distribution.manifest.list.v2+json".
Definition Docker2ImageConfig : string :=
  "application/vnd.docker.container.image.v1+json".
Definition Docker2Layer : string :=
  "application/vnd.docker.image.rootfs.diff.tar".
Definition Docker2LayerGzip : string :=
  "application/vnd.docker.image.rootfs.diff.tar.gzip".
Definition OCI1Manifest : string :=
  "application/vnd.oci.image.manifest.v1+json".
Definition OCI1ManifestList : string :=
  "application/vnd.oci.image.index.v1+json".
Definition OCI1ImageConfig : string :=
  "application/vnd.oci.image.config.v1+json".
Definition OCI1Layer : string :=
  "application/vnd.oci.image.layer.v1.tar".
Definition OCI1LayerGzip : string :=
  "application/vnd.oci.image.layer.v1.tar+gzip".

End mediatype.

(** The error kinds of §7 that this package returns. *)
Inductive Error : Type :=
| ErrParsingFailed
| ErrUnsupported
| ErrNotFound.

#[global] Instance Error_eq_dec : EqDecision Error.
Proof. solve_decision. Defined.

(** The descriptor of §3.  [Data] is empty when no data is embedded;
    [digestAlgo] is the preferred algorithm, empty when none was set. *)
Record Descriptor : Type := {
  MediaType : string;
  Digest : string;
  Size : Z;
  URLs : list string;
  Annotations : gmap string string;
  Data : list Byte.byte;
  Platform : option platform.Platform;
  ArtifactType : string;
  digestAlgo : string;
}.

(** The zero value [Descriptor{}]. *)
Definition zero : Descriptor :=
  {| MediaType := ""; Digest := ""; Size := 0; URLs := []; Annotations := ∅;
     Data := []; Platform := None; ArtifactType := ""; digestAlgo := "" |}.

(** ** Digest identity (§4.1) *)

(** The process-wide default algorithm. *)
Definition Canonical : string := "sha256".

(** [s] cut at its first colon. *)
Fixpoint splitColon (s : string) : option (string * string) :=
  match s with
  | EmptyString => None
  | String c rest =>
      if Ascii.eqb c ":"%char then Some (EmptyString, rest)
      else
        match splitColon rest with
        | Some (algo, hex) => Some (String c algo, hex)
        | None => None
        end
  end.

Definition isHex (c : Ascii.ascii) : bool :=
  let n := Ascii.nat_of_ascii c in
  (bool_decide (48 ≤ n) && bool_decide (n ≤ 57))
  || (bool_decide (97 ≤ n) && bool_decide (n ≤ 102)).

Fixpoint allHex (s : string) : bool :=
  match s with
  | EmptyString => true
  | String c rest => isHex c && allHex rest
  end.

Section Digests.

(** The registered hash algorithms, each with the length of its hashes in
    hexadecimal digits. *)
Variable registered : gmap string nat.

(** The hash function of each algorithm: [algo.FromBytes(data)], an
    algorithm-tagged digest. *)
Variable FromBytes : string → list Byte.byte → string.

(** Modelled from the spec: [parse] of §4.1 is not among the sources.  It
    splits on the first colon and accepts only a registered algorithm with a
    hash of matching length. *)
Definition parse (s : string) : option (string * string) :=
  match splitColon s with
  | Some (algo, hex) =>
      match registered !! algo with
      | Some n =>
          if bool_decide (String.length hex = n) && allHex hex
          then Some (algo, hex) else None
      | None => None
      end
  | None => None
  end.

Definition validDigest (s : string) : bool :=
  match parse s with Some _ => true | None => false end.

(** Modelled from the spec: [Descriptor.DigestAlgo] ([algorithmOf] of §4.1)
    is not among the sources.  A valid digest decides; otherwise the
    preferred algorithm, if one was set, and the canonical one if not. *)
Definition DigestAlgo (d : Descriptor) : string :=
  match parse (Digest d) with
  | Some (algo, _) => algo
  | None => if bool_decide (digestAlgo d = "") then Canonical else digestAlgo d
  end.

(** Modelled from the spec: [Descriptor.DigestAlgoPrefer] ([preferAlgorithm]
    of §4.1) is not among the sources.  The descriptor is the receiver as the
    call leaves it. *)
Definition DigestAlgoPrefer (d : Descriptor) (algo : string)
  : Descriptor * option Error :=
  match registered !! algo with
  | None => (d, Some ErrUnsupported)
  | Some _ =>
      ({| MediaType := MediaType d; Digest := Digest d; Size := Size d;
          URLs := URLs d; Annotations := Annotations d; Data := Data d;
          Platform := Platform d; ArtifactType := ArtifactType d;
          digestAlgo := algo |}, None)
  end.

(** Modelled from the spec: [Descriptor.GetData] ([getData] of §4.2) is not
    among the sources.  The three checks are made in the order (a), (b),
    (c). *)
Definition GetData (d : Descriptor) : Result Error (list Byte.byte) :=
  if bool_decide (Data d = []) then Err ErrParsingFailed
  else if bool_decide (Z.of_nat (length (Data d)) ≠ Size d) then
    Err ErrParsingFailed
  else if bool_decide (FromBytes (DigestAlgo d) (Data d) ≠ Digest d) then
    Err ErrParsingFailed
  else Ok (Data d).

End Digests.

(** The algorithms the tests rely on: SHA-256, SHA-384 and SHA-512. *)
Definition stdRegistered : gmap string nat :=
  {[ "sha256" := 64; "sha384" := 96; "sha512" := 128 ]}.

(** ** Comparison (§4.2) *)

(** Modelled from the spec: [Descriptor.Same] is not among the sources.
    Digest and size are compared as §4.2 says.  The cases "converting OCI
    media type" and "different media type" of TestCompare show that two media
    types that differ are accepted in some cases and refused in others; the
    rule the package applies to them is not among the sources and is the
    parameter [converts]. *)
Definition Same (converts : string → string → bool) (d d2 : Descriptor) : bool :=
  if bool_decide (Digest d ≠ Digest d2 ∨ Size d ≠ Size d2) then false
  else if bool_decide (MediaType d ≠ MediaType d2) then
    converts (MediaType d) (MediaType d2)
  else true.

(** What TestCompare shows of the rule for media types that differ: a Docker
    manifest against an OCI manifest is accepted, a Docker manifest against a
    Docker manifest list is not. *)
Definition agreesWithTestCompare (converts : string → string → bool) : Prop :=
  converts mediatype.Docker2Manifest mediatype.OCI1Manifest = true
  ∧ converts mediatype.Docker2Manifest mediatype.Docker2ManifestList = false.


(** ** Search in a descriptor list (§4.3) *)

Module MatchOpt.

Record t : Type := {
  Platform : option platform.Platform;
  ArtifactType : string;
  Annotations : gmap string string;
  SortAnnotation : string;
  SortDesc : bool;
}.

End MatchOpt.

(** A match specification that constrains the platform only. *)
Definition platformOnly (p : platform.Platform) : MatchOpt.t :=
  {| MatchOpt.Platform := Some p; MatchOpt.ArtifactType := "";
     MatchOpt.Annotations := ∅; MatchOpt.SortAnnotation := "";
     MatchOpt.SortDesc := false |}.

Definition matchArtifactType (opt : MatchOpt.t) (d : Descriptor) : bool :=
  bool_decide (MatchOpt.ArtifactType opt = "")
  || bool_decide (ArtifactType d = MatchOpt.ArtifactType opt).

Definition matchAnnotations (opt : MatchOpt.t) (d : Descriptor) : bool :=
  bool_decide (map_Forall (λ k v, Annotations d !! k = Some v)
                 (MatchOpt.Annotations opt)).

(** Modelled from the spec: the OS-compatibility table of [types/platform]
    is not among the sources; §4.3 gives the one substitution it names, a
    darwin request served by a linux entry. *)
Definition osCompatible (requested entry : string) : bool :=
  bool_decide (requested = "darwin" ∧ entry = "linux").

Definition exactPlatform (p : platform.Platform) (d : Descriptor) : bool :=
  match Platform d with
  | Some q =>
      bool_decide (platform.OS q = platform.OS p
                   ∧ platform.Architecture q = platform.Architecture p
                   ∧ platform.Variant q = platform.Variant p)
  | None => false
  end.

Definition compatiblePlatform (p : platform.Platform) (d : Descriptor) : bool :=
  match Platform d with
  | Some q =>
      osCompatible (platform.OS p) (platform.OS q)
      && bool_decide (platform.Architecture q = platform.Architecture p
                      ∧ platform.Variant q = platform.Variant p)
  | None => false
  end.

Definition noPlatform (d : Descriptor) : bool :=
  match Platform d with Some _ => false | None => true end.

(** Steps 1(c) and 2 of §4.3: the exact matches if there are any, else the
    compatible ones if there are any; the candidates without a platform stay
    only when no entry of the list matches the platform. *)
Definition platformCandidates (p : platform.Platform)
    (dl cands : list Descriptor) : list Descriptor :=
  match List.filter (exactPlatform p) cands with
  | (_ :: _) as exact => exact
  | [] =>
      match List.filter (compatiblePlatform p) cands with
      | (_ :: _) as compat => compat
      | [] =>
          if existsb (λ d, exactPlatform p d || compatiblePlatform p d) dl
          then []
          else List.filter noPlatform cands
      end
  end.

(** Step 3 of §4.3: [a] is ordered strictly before [b]; a candidate without
    the key comes after every candidate with it. *)
Definition sortsBefore (key : string) (desc : bool) (a b : Descriptor) : bool :=
  match Annotations a !! key, Annotations b !! key with
  | Some va, Some vb => if desc then String.ltb vb va else String.ltb va vb
  | Some _, None => true
  | None, _ => false
  end.

Fixpoint insertSorted (key : string) (desc : bool) (d : Descriptor)
    (l : list Descriptor) : list Descriptor :=
  match l with
  | [] => [d]
  | x :: rest =>
      if sortsBefore key desc x d then x :: insertSorted key desc d rest
      else d :: l
  end.

Definition sortByAnnotation (key : string) (desc : bool)
    (l : list Descriptor) : list Descriptor :=
  foldr (insertSorted key desc) [] l.

(** The candidates tied with the first of a sorted list: the first and
    those it is not ordered strictly before. *)
Definition tiedWithFirst (key : string) (desc : bool)
    (sorted : list Descriptor) : list Descriptor :=
  match sorted with
  | [] => []
  | d :: rest => d :: List.filter (λ x, negb (sortsBefore key desc d x)) rest
  end.

(** Modelled from the spec: [DescriptorListSearch] is not among the
    sources.  Which member of a set of tied candidates is returned is left
    open by §4.3 (step 4) and is the parameter [tieBreak], which is given the
    tied candidates in list order: all the candidates when no sort key is
    set, those tied with the first after sorting otherwise. *)
Definition DescriptorListSearch (tieBreak : Descriptor → list Descriptor → Descriptor)
    (dl : list Descriptor) (opt : MatchOpt.t) : Result Error Descriptor :=
  let filtered :=
    List.filter (λ d, matchArtifactType opt d && matchAnnotations opt d) dl in
  let matched :=
    match MatchOpt.Platform opt with
    | Some p => platformCandidates p dl filtered
    | None => filtered
    end in
  let tied :=
    if bool_decide (MatchOpt.SortAnnotation opt = "") then matched
    else tiedWithFirst (MatchOpt.SortAnnotation opt) (MatchOpt.SortDesc opt)
           (sortByAnnotation (MatchOpt.SortAnnotation opt)
              (MatchOpt.SortDesc opt) matched) in
  match tied with
  | d :: rest => Ok (tieBreak d rest)
  | [] => Err ErrNotFound
  end.

(** A tie-break returns one of the tied candidates. *)
Definition choosesMember (tieBreak : Descriptor → list Descriptor → Descriptor)
  : Prop :=
  ∀ d rest, tieBreak d rest ∈ d :: rest.

(** A descriptor whose platform has the given OS and architecture and no
    variant. *)
Definition onPlatform (os arch : string) (d : Descriptor) : Prop :=
  ∃ q, Platform d = Some q ∧ platform.OS q = os
       ∧ platform.Architecture q = arch ∧ platform.Variant q = "".

Definition mkPlatform (os arch : string) : platform.Platform :=
  {| platform.OS := os; platform.Architecture := arch;
     platform.OSVersion := ""; platform.OSFeatures := [];
     platform.Variant := "" |}.

(** ** The tables of the package's tests *)
Module Tests.

(** [digest.FromString("test A")] and [digest.FromString("test B")]. *)
Definition digA : string :=
  "sha256:ffea9d0796c0619962166dc19829f5cf3adec0183e5fa28328423250d372dca6".
Definition digB : string :=
  "sha256:751b452a4267ab9cc8700ce39fd508cba028dc46ccdd75d74b10bc48ef310aae".

(** The digest of the empty JSON object, [EmptyDigest]. *)
Definition EmptyDigest : string :=
  "sha256:44136fa355b3678a1146ad16f7e8649e94fb4fc21fe77e8310c060f61caaff8a".

Definition desc (mt : string) (size : Z) (dig : string) : Descriptor :=
  {| MediaType := mt; Digest := dig; Size := size; URLs := [];
     Annotations := ∅; Data := []; Platform := None; ArtifactType := "";
     digestAlgo := "" |}.

Definition withAnnotations (l : list (string * string)) (d : Descriptor)
  : Descriptor :=
  {| MediaType := MediaType d; Digest := Digest d; Size := Size d;
     URLs := URLs d; Annotations := list_to_map l; Data := Data d;
     Platform := Platform d; ArtifactType := ArtifactType d;
     digestAlgo := digestAlgo d |}.

Definition withURLs (l : list string) (d : Descriptor) : Descriptor :=
  {| MediaType := MediaType d; Digest := Digest d; Size := Size d;
     URLs := l; Annotations := Annotations d; Data := Data d;
     Platform := Platform d; ArtifactType := ArtifactType d;
     digestAlgo := digestAlgo d |}.

Definition withPlatform (os arch : string) (d : Descriptor) : Descriptor :=
  {| MediaType := MediaType d; Digest := Digest d; Size := Size d;
     URLs := URLs d; Annotations := Annotations d; Data := Data d;
     Platform := Some (mkPlatform os arch); ArtifactType := ArtifactType d;
     digestAlgo := digestAlgo d |}.

Definition withArtifactType (at_ : string) (d : Descriptor) : Descriptor :=
  {| MediaType := MediaType d; Digest := Digest d; Size := Size d;
     URLs := URLs d; Annotations := Annotations d; Data := Data d;
     Platform := Platform d; ArtifactType := at_;
     digestAlgo := digestAlgo d |}.

Definition withData (data : string) (d : Descriptor) : Descriptor :=
  {| MediaType := MediaType d; Digest := Digest d; Size := Size d;
     URLs := URLs d; Annotations := Annotations d;
     Data := String.list_byte_of_string data;
     Platform := Platform d; ArtifactType := ArtifactType d;
     digestAlgo := digestAlgo d |}.

(** The rule for media types that differ, cut down to the one pair that
    TestCompare shows accepted. *)
Definition converts (mt mt2 : string) : bool :=
  bool_decide (mt = mediatype.Docker2Manifest ∧ mt2 = mediatype.OCI1Manifest).

(** The tie-break that follows the list order, which the expectations of
    TestListSearch admit. *)
Definition inListOrder (d : Descriptor) (rest : list Descriptor) : Descriptor := d.

(** *** TestCompare: name, d1, d2, expectSame *)
Definition d2m : Descriptor := desc mediatype.Docker2Manifest 1234 digA.

Definition TestCompare : list (string * Descriptor * Descriptor * bool) := [
  ("empty", zero, zero, true);
  ("empty d1", zero, d2m, false);
  ("empty d2", d2m, zero, false);
  ("same simple manifest", d2m, d2m, true);
  ("converting OCI media type", d2m, desc mediatype.OCI1Manifest 1234 digA, true);
  ("different media type", d2m,
   desc mediatype.Docker2ManifestList 1234 digA, false);
  ("different size", d2m, desc mediatype.Docker2Manifest 4321 digA, false);
  ("different digest", d2m, desc mediatype.Docker2Manifest 1234 digB, false);
  ("annotation eq",
   withAnnotations [("key a", "value a"); ("key b", "value b")] d2m,
   withAnnotations [("key b", "value b"); ("key a", "value a")] d2m, true);
  ("annotation diff",
   withAnnotations [("key a", "value a"); ("key b", "value b")] d2m,
   withAnnotations [("key a", "value c"); ("key d", "value b")] d2m, true);
  ("annotation missing",
   withAnnotations [("key a", "value a"); ("key b", "value b")] d2m, d2m, true);
  ("urls eq", withURLs ["url a"; "url b"] d2m, withURLs ["url a"; "url b"] d2m,
   true);
  ("urls diff", withURLs ["url a"; "url b"] d2m,
   withURLs ["url c"; "url d"] d2m, true);
  ("urls missing", withURLs ["url a"; "url b"] d2m, d2m, true);
  ("platform eq", withPlatform "linux" "amd64" d2m,
   withPlatform "linux" "amd64" d2m, true);
  ("platform diff", withPlatform "linux" "amd64" d2m,
   withPlatform "linux" "arm64" d2m, true);
  ("platform missing", withPlatform "linux" "amd64" d2m, d2m, true);
  ("artifactType eq", withArtifactType "application/vnd.example.test" d2m,
   withArtifactType "application/vnd.example.test" d2m, true);
  ("artifactType diff", withArtifactType "application/vnd.example.test" d2m,
   withArtifactType "application/vnd.example.test2" d2m, true);
  ("artifactType missing", withArtifactType "application/vnd.example.test" d2m,
   d2m, true) ].

(** *** TestListSearch *)
Definition oci : Descriptor := desc mediatype.OCI1Manifest 12345 EmptyDigest.
Definition dAMD64 : Descriptor := withPlatform "linux" "amd64" oci.
Definition dAMD64Win : Descriptor := withPlatform "windows" "amd64" oci.
Definition dARM64 : Descriptor := withPlatform "linux" "arm64" oci.
Definition dAnnotations : Descriptor :=
  withAnnotations [("runtime", "special runtime"); ("version", "1.2.3");
                   ("date", "2022-01-01 12:34:56")] dAMD64.
Definition dAnnotations2 : Descriptor :=
  withAnnotations [("runtime", "special runtime"); ("version", "1.3.0");
                   ("date", "2022-04-01 01:02:03")] dAMD64.
Definition dArtifact : Descriptor :=
  withAnnotations [("version", "1.2.3"); ("date", "2022-01-01 12:34:56")]
    (withArtifactType "application/example.artifact" oci).
Definition dArtifact2 : Descriptor :=
  withAnnotations [("version", "1.2.9"); ("date", "2022-04-01 01:02:03");
                   ("unique", "x")]
    (withArtifactType "application/example.artifact" oci).
Definition dArtifact3 : Descriptor :=
  withAnnotations [("version", "1.3.0"); ("date", "2022-02-28 02:04:08")]
    (withArtifactType "application/example.artifact" oci).

Definition testDL : list Descriptor :=
  [dAMD64; dARM64; dAMD64Win; dAnnotations; dAnnotations2;
   dArtifact; dArtifact2; dArtifact3].

Definition opt (p : option platform.Platform) (at_ : string)
    (ann : list (string * string)) (key : string) (desc : bool) : MatchOpt.t :=
  {| MatchOpt.Platform := p; MatchOpt.ArtifactType := at_;
     MatchOpt.Annotations := list_to_map ann; MatchOpt.SortAnnotation := key;
     MatchOpt.SortDesc := desc |}.

Definition artifact : string := "application/example.artifact".

(** name, dl, opt, and the expected descriptor or error. *)
Definition TestListSearch
  : list (string * list Descriptor * MatchOpt.t * Result Error Descriptor) := [
  ("empty", [], opt None "" [] "" false, Err ErrNotFound);
  ("amd64", testDL, platformOnly (mkPlatform "linux" "amd64"), Ok dAMD64);
  ("amd64 compat", testDL, platformOnly (mkPlatform "darwin" "amd64"),
   Ok dAMD64);
  ("amd64 windows", testDL, platformOnly (mkPlatform "windows" "amd64"),
   Ok dAMD64Win);
  ("amd64 annotations", testDL,
   opt (Some (mkPlatform "linux" "amd64")) "" [("runtime", "special runtime")]
     "" false, Ok dAnnotations);
  ("artifact missing", testDL,
   opt (Some (mkPlatform "linux" "amd64")) artifact [] "" false,
   Err ErrNotFound);
  ("artifact", testDL, opt None artifact [] "" false, Ok dArtifact);
  ("artifact sort", testDL, opt None artifact [] "date" false, Ok dArtifact);
  ("artifact sort desc", testDL, opt None artifact [] "date" true,
   Ok dArtifact2);
  ("artifact sort unset", testDL, opt None artifact [] "unique" false,
   Ok dArtifact2);
  ("artifact sort unset desc", testDL, opt None artifact [] "unique" true,
   Ok dArtifact2);
  ("artifact sort all unique desc", testDL, opt None "" [] "unique" true,
   Ok dArtifact2) ].

(** *** TestDigestAlgorithm *)
Definition dig256 : string :=
  "sha256:b94d27b9934d3e08a52e52d7da7dabfac484efe37a5380ee9088f7ace2efcde9".
Definition dig512 : string :=
  "sha512:309ecc489c12d6eb4cc40f50c902f2b4d0ed77ee511a7c7a9bcd3ca86d4cd86f989dd35bc5ff499670da34255b45b0cfd830e81f605dcf7dc5542e93ae9cd76f".
Definition digInvalidHash : string := "sha512:1234".
Definition digInvalidFormat : string := "unknown".
Definition digInvalidAlgorithm : string := "sha123:123412341234".

(** name, digest of the descriptor, setPref (empty: none), whether setting
    must fail, expectAlgo. *)
Definition TestDigestAlgorithm : list (string * string * string * bool * string) := [
  ("empty", "", "", false, Canonical);
  ("valid-sha256", dig256, "", false, "sha256");
  ("valid-sha512", dig512, "", false, "sha512");
  ("invalid-hash", digInvalidHash, "", false, Canonical);
  ("invalid-format", digInvalidFormat, "", false, Canonical);
  ("invalid-algorithm", digInvalidAlgorithm, "", false, Canonical);
  ("empty-prefer-512", "", "sha512", false, "sha512");
  ("valid-sha256-prefer-512", dig256, "sha512", false, "sha256");
  ("empty-set-invalid", "", "invalid", true, Canonical);
  ("invalid-hash-failed-set", digInvalidHash, "invalid", true, Canonical) ].

(** One case of TestDigestAlgorithm run on the model. *)
Definition runDigestAlgorithm (tc : string * string * string * bool * string)
  : bool :=
  let '(_, dig, setPref, expectSetErr, expectAlgo) := tc in
  let d := desc "" 0 dig in
  let '(d', err) :=
    if bool_decide (setPref = "") then (d, None)
    else DigestAlgoPrefer stdRegistered d setPref in
  bool_decide (err = if expectSetErr then Some ErrUnsupported else None)
  && bool_decide (DigestAlgo stdRegistered d' = expectAlgo).

(** *** TestGetDataDescriptor *)
Definition sha256ExampleData : string :=
  "sha256:44752f37272e944fd2c913a35342eaccdd1aaf189bae50676b301ab213fc5061".
Definition sha512ExampleData : string :=
  "sha512:ed59c5759a9ece516cec0c0623142d0e9fe70a27d750eee7fd38f4550d50addd873d0fa1a51fc823c1e3d5cada203f4a05d8325caacb7d3e0727a701f3f07e5f".

Definition exampleData : list Byte.byte :=
  String.list_byte_of_string "example data".

(** name, descriptor, and the expected data or error. *)
Definition TestGetDataDescriptor
  : list (string * Descriptor * Result Error (list Byte.byte)) := [
  ("No Data",
   desc mediatype.Docker2LayerGzip 941
     "sha256:f6e2d7fa40092cf3d9817bf6ff54183d68d108a47fdf5a5e476c612626c80e14",
   Err ErrParsingFailed);
  ("Bad Digest",
   withData "example data" (desc mediatype.OCI1LayerGzip 12
     "sha256:e4a380728755139f156563e8b795581d5915dcc947fe937c524c6d52fd604b99"),
   Err ErrParsingFailed);
  ("Bad Digest 512",
   withData "example data" (desc mediatype.OCI1LayerGzip 12
     "sha512:1239c5759a9ece516cec0c0623142d0e9fe70a27d750eee7fd38f4550d50addd873d0fa1a51fc823c1e3d5cada203f4a05d8325caacb7d3e0727a701f3f07e5f"),
   Err ErrParsingFailed);
  ("Bad Size",
   withData "example data" (desc mediatype.OCI1LayerGzip 1000 sha256ExampleData),
   Err ErrParsingFailed);
  ("Good data",
   withData "example data" (desc mediatype.OCI1LayerGzip 12 sha256ExampleData),
   Ok exampleData);
  ("Good data 512",
   withData "example data" (desc mediatype.OCI1LayerGzip 12 sha512ExampleData),
   Ok exampleData) ].

End Tests.

(** A darwin/amd64 entry, which none of the tests lists. *)
Definition dDarwin : Descriptor := Tests.withPlatform "darwin" "amd64" Tests.oci.

(** ** The model against the tests *)

Lemma Same_TestCompare (converts : string → string → bool) :
  agreesWithTestCompare converts →
  Forall (λ '(_, d1, d2, expectSame), Same converts d1 d2 = expectSame)
    Tests.TestCompare.
Proof.
  intros [Hyes Hno]. repeat (apply Forall_cons; split); try apply Forall_nil;
    try reflexivity; unfold Same; simpl; done.
Qed.

Lemma DescriptorListSearch_TestListSearch :
  Forall (λ '(_, dl, opt, expect),
            DescriptorListSearch Tests.inListOrder dl opt = expect)
    Tests.TestListSearch.
Proof. repeat constructor. Qed.

Lemma DigestAlgo_TestDigestAlgorithm :
  Forall (λ tc, Tests.runDigestAlgorithm tc = true) Tests.TestDigestAlgorithm.
Proof. repeat constructor. Qed.

(** The cases of TestGetDataDescriptor, given the two hashes of
    ["example data"] that they rely on. *)
Lemma GetData_TestGetDataDescriptor (FromBytes : string → list Byte.byte → string) :
  FromBytes "sha256" Tests.exampleData = Tests.sha256ExampleData →
  FromBytes "sha512" Tests.exampleData = Tests.sha512ExampleData →
  Forall (λ '(_, d, expect), GetData stdRegistered FromBytes d = expect)
    Tests.TestGetDataDescriptor.
Proof.
  intros H256 H512. repeat (apply Forall_cons; split); try apply Forall_nil;
    try reflexivity; unfold GetData; simpl.
  - change (DigestAlgo stdRegistered _) with "sha256".
    change (String.list_byte_of_string "example data") with Tests.exampleData.
    by rewrite H256.
  - change (DigestAlgo stdRegistered _) with "sha512".
    change (String.list_byte_of_string "example data") with Tests.exampleData.
    by rewrite H512.
  - change (DigestAlgo stdRegistered _) with "sha256".
    change (String.list_byte_of_string "example data") with Tests.exampleData.
    by rewrite H256.
  - change (DigestAlgo stdRegistered _) with "sha512".
    change (String.list_byte_of_string "example data") with Tests.exampleData.
    by rewrite H512.
Qed.

(** ** Comparison *)




(** ** Embedded data *)

(** C7.  [GetData] fails with [ErrParsingFailed], its only error, exactly
    when the data is missing, or its length differs from the size, or its
    digest under the descriptor's own algorithm differs from the digest;
    otherwise it returns the data. *)
Theorem GetData_spec (registered : gmap string nat)
    (FromBytes : string → list Byte.byte → string) (d : Descriptor) :
  (GetData registered FromBytes d = Err ErrParsingFailed ↔
     Data d = [] ∨ Z.of_nat (length (Data d)) ≠ Size d
     ∨ FromBytes (DigestAlgo registered d) (Data d) ≠ Digest d)
  ∧ (∀ e, GetData registered FromBytes d = Err e → e = ErrParsingFailed)
  ∧ (¬ (Data d = [] ∨ Z.of_nat (length (Data d)) ≠ Size d
        ∨ FromBytes (DigestAlgo registered d) (Data d) ≠ Digest d) →
     GetData registered FromBytes d = Ok (Data d)).
Proof.
  unfold GetData. repeat case_bool_decide; (split; [|split]);
    try tauto; try (by intros e [= <-]); try done.
  split; [done|]. tauto.
Qed.

(** ** Preferred digest algorithm *)

(** C9.  [DigestAlgoPrefer] fails, with [ErrUnsupported], exactly when the
    algorithm is not registered; it never changes the digest; and on a
    descriptor whose digest is valid it does not change what [DigestAlgo]
    reports.  On a digest that is not valid, a successful call makes
    [DigestAlgo] report the preferred algorithm. *)
Theorem DigestAlgoPrefer_spec (registered : gmap string nat)
    (d : Descriptor) (algo : string) :
  ((DigestAlgoPrefer registered d algo).2 = Some ErrUnsupported ↔
     registered !! algo = None)
  ∧ ((DigestAlgoPrefer registered d algo).2 = None ↔
       is_Some (registered !! algo))
  ∧ Digest (DigestAlgoPrefer registered d algo).1 = Digest d
  ∧ (validDigest registered (Digest d) = true →
     DigestAlgo registered (DigestAlgoPrefer registered d algo).1
     = DigestAlgo registered d)
  ∧ (validDigest registered (Digest d) = false →
     is_Some (registered !! algo) → algo ≠ "" →
     DigestAlgo registered (DigestAlgoPrefer registered d algo).1 = algo).
Proof.
  unfold DigestAlgoPrefer, DigestAlgo, validDigest.
  destruct (registered !! algo) as [n|] eqn:Hreg; simpl.
  - split; [done|]. split; [by split; [eauto|]|]. split; [done|].
    destruct (parse registered (Digest d)) as [[a h]|]; [done|].
    split; [done|]. intros _ _ Hne. by rewrite bool_decide_eq_false_2.
  - split; [done|]. split; [split; [done|by intros [? ?]]|]. split; [done|].
    split; [done|]. by intros _ [? ?].
Qed.

Lemma DigestAlgoPrefer_spec_witness :
  validDigest stdRegistered (Digest (Tests.desc "" 0 Tests.dig256)) = true
  ∧ DigestAlgo stdRegistered
      (DigestAlgoPrefer stdRegistered (Tests.desc "" 0 Tests.dig256) "sha512").1
    = "sha256".
Proof.
  split; [reflexivity|].
  exact (proj1 (proj2 (proj2 (proj2 (DigestAlgoPrefer_spec stdRegistered
    (Tests.desc "" 0 Tests.dig256) "sha512")))) eq_refl).
Defined.

(** ** Search by platform *)

Lemma filter_true {A} (f : A → bool) (l : list A) :
  (∀ x, f x = true) → List.filter f l = l.
Proof.
  intros Hf. induction l as [|x l IH]; simpl; [done|]. by rewrite Hf, IH.
Qed.

Lemma filter_none {A} (f : A → bool) (l : list A) :
  (∀ x, x ∈ l → f x = false) → List.filter f l = [].
Proof.
  induction l as [|x l IH]; intros Hf; simpl; [done|].
  rewrite (Hf x) by left. apply IH. intros y Hy. apply Hf. by right.
Qed.

(** A filter that some element passes keeps a non-empty list of elements
    that all pass. *)
Lemma filter_some {A} (f : A → bool) (l : list A) x0 :
  x0 ∈ l → f x0 = true →
  ∃ x rest, List.filter f l = x :: rest
            ∧ ∀ y, y ∈ x :: rest → y ∈ l ∧ f y = true.
Proof.
  intros Hin Hx0.
  assert (Hmem : ∀ y, y ∈ List.filter f l → y ∈ l ∧ f y = true).
  { intros y Hy. apply list_elem_of_In, filter_In in Hy as [Hy ?].
    split; [by apply list_elem_of_In|done]. }
  destruct (List.filter f l) as [|x rest] eqn:Hf.
  - assert (Hx : x0 ∈ List.filter f l)
      by (apply list_elem_of_In, filter_In; split; [by apply list_elem_of_In|done]).
    rewrite Hf in Hx. by apply elem_of_nil in Hx.
  - by exists x, rest.
Qed.

Lemma exactPlatform_onPlatform os arch d :
  exactPlatform (mkPlatform os arch) d = true ↔ onPlatform os arch d.
Proof.
  unfold exactPlatform, onPlatform. destruct (Platform d) as [q|]; simpl.
  - rewrite bool_decide_eq_true. split.
    + intros (? & ? & ?). by exists q.
    + by intros (q' & [= <-] & ? & ? & ?).
  - split; [done|]. by intros (q' & ? & _).
Qed.

Lemma compatiblePlatform_darwin arch d :
  compatiblePlatform (mkPlatform "darwin" arch) d = true ↔
  onPlatform "linux" arch d.
Proof.
  unfold compatiblePlatform, onPlatform, osCompatible.
  destruct (Platform d) as [q|]; simpl.
  - rewrite andb_true_iff, !bool_decide_eq_true. split.
    + intros ((_ & ?) & ? & ?). by exists q.
    + by intros (q' & [= <-] & ? & ? & ?).
  - split; [done|]. by intros (q' & ? & _).
Qed.

(** With a platform as only constraint every entry passes the first
    filters, and the search breaks the tie among the platform candidates. *)
Lemma DescriptorListSearch_platformOnly tieBreak dl p :
  DescriptorListSearch tieBreak dl (platformOnly p) =
    match platformCandidates p dl dl with
    | d :: rest => Ok (tieBreak d rest)
    | [] => Err ErrNotFound
    end.
Proof.
  unfold DescriptorListSearch. simpl. rewrite filter_true; [done|].
  intros d. unfold matchArtifactType, matchAnnotations. simpl.
  apply bool_decide_eq_true. apply map_Forall_empty.
Qed.

(** An exact match, when the list has one, is what the search returns. *)
Lemma DescriptorListSearch_exact tieBreak dl p d0 :
  choosesMember tieBreak →
  d0 ∈ dl → exactPlatform p d0 = true →
  ∃ d, DescriptorListSearch tieBreak dl (platformOnly p) = Ok d
       ∧ d ∈ dl ∧ exactPlatform p d = true.
Proof.
  intros Hpick Hin Hex. rewrite DescriptorListSearch_platformOnly.
  destruct (filter_some _ _ _ Hin Hex) as (x & rest & Hf & Hmem).
  unfold platformCandidates. rewrite Hf. exists (tieBreak x rest).
  split; [done|]. apply Hmem, Hpick.
Qed.

(** C8, amended.  Whichever member of a tied set the search returns: in a
    list with a linux/amd64 and a windows/amd64 entry, a search for
    darwin/amd64 returns a linux/amd64 entry of the list provided the list
    has no darwin/amd64 entry, and a search for windows/amd64 returns a
    windows/amd64 entry of the list; whenever the list has an entry whose OS,
    architecture and variant are the requested ones, the search returns such
    an entry. *)
Theorem DescriptorListSearch_platform
    (tieBreak : Descriptor → list Descriptor → Descriptor) (dl : list Descriptor) :
  choosesMember tieBreak →
  (∃ d, d ∈ dl ∧ onPlatform "linux" "amd64" d) →
  (∃ d, d ∈ dl ∧ onPlatform "windows" "amd64" d) →
  ((∀ d, d ∈ dl → ¬ onPlatform "darwin" "amd64" d) →
     ∃ d, DescriptorListSearch tieBreak dl
            (platformOnly (mkPlatform "darwin" "amd64")) = Ok d
          ∧ d ∈ dl ∧ onPlatform "linux" "amd64" d)
  ∧ (∃ d, DescriptorListSearch tieBreak dl
            (platformOnly (mkPlatform "windows" "amd64")) = Ok d
          ∧ d ∈ dl ∧ onPlatform "windows" "amd64" d)
  ∧ (∀ p d0, d0 ∈ dl → exactPlatform p d0 = true →
       ∃ d, DescriptorListSearch tieBreak dl (platformOnly p) = Ok d
            ∧ d ∈ dl ∧ exactPlatform p d = true).
Proof.
  intros Hpick (dLinux & HinL & HL) (dWin & HinW & HW). split; [|split].
  - intros Hnone. rewrite DescriptorListSearch_platformOnly.
    unfold platformCandidates. rewrite filter_none.
    2: { intros x Hx. destruct (exactPlatform _ x) eqn:Hex; [|done].
         apply exactPlatform_onPlatform in Hex. by destruct (Hnone x Hx). }
    apply compatiblePlatform_darwin in HL.
    destruct (filter_some _ _ _ HinL HL) as (x & rest & -> & Hmem).
    exists (tieBreak x rest). split; [done|].
    destruct (Hmem _ (Hpick x rest)) as [Hin Hc].
    split; [done|by apply compatiblePlatform_darwin].
  - apply exactPlatform_onPlatform in HW.
    destruct (DescriptorListSearch_exact tieBreak dl _ dWin Hpick HinW HW)
      as (d & Hd & Hin & Hex).
    exists d. split; [done|]. split; [done|by apply exactPlatform_onPlatform].
  - intros p d0. by apply DescriptorListSearch_exact.
Qed.

Lemma DescriptorListSearch_platform_witness :
  choosesMember Tests.inListOrder
  ∧ onPlatform "linux" "amd64" Tests.dAMD64
  ∧ onPlatform "windows" "amd64" Tests.dAMD64Win
  ∧ (∀ d, d ∈ Tests.testDL → ¬ onPlatform "darwin" "amd64" d)
  ∧ ∃ d, DescriptorListSearch Tests.inListOrder Tests.testDL
           (platformOnly (mkPlatform "darwin" "amd64")) = Ok d
         ∧ d ∈ Tests.testDL ∧ onPlatform "linux" "amd64" d.
Proof.
  assert (Hpick : choosesMember Tests.inListOrder) by (intros d rest; left).
  assert (HL : onPlatform "linux" "amd64" Tests.dAMD64)
    by (by exists (mkPlatform "linux" "amd64")).
  assert (HW : onPlatform "windows" "amd64" Tests.dAMD64Win)
    by (by exists (mkPlatform "windows" "amd64")).
  assert (Hnone : ∀ d, d ∈ Tests.testDL → ¬ onPlatform "darwin" "amd64" d).
  { apply Forall_forall.
    repeat constructor; intros (q & Hq & Hos & _); simpl in Hq;
      try discriminate Hq; injection Hq as <-; discriminate Hos. }
  split; [exact Hpick|]. split; [exact HL|]. split; [exact HW|].
  split; [exact Hnone|].
  refine (proj1 (DescriptorListSearch_platform Tests.inListOrder Tests.testDL
            Hpick _ _) Hnone).
  - exists Tests.dAMD64. split; [left|exact HL].
  - exists Tests.dAMD64Win. split; [right; right; left|exact HW].
Defined.

(** With a darwin/amd64 entry next to the linux/amd64 and windows/amd64
    entries, the search for darwin/amd64 returns the darwin entry, however
    ties are broken. *)
Lemma DescriptorListSearch_platform_counterexample :
  onPlatform "linux" "amd64" Tests.dAMD64
  ∧ onPlatform "windows" "amd64" Tests.dAMD64Win
  ∧ ¬ onPlatform "linux" "amd64" dDarwin
  ∧ DescriptorListSearch Tests.inListOrder
      [Tests.dAMD64; Tests.dAMD64Win; dDarwin]
      (platformOnly (mkPlatform "darwin" "amd64")) = Ok dDarwin
  ∧ ∀ tieBreak, choosesMember tieBreak →
      DescriptorListSearch tieBreak [Tests.dAMD64; Tests.dAMD64Win; dDarwin]
        (platformOnly (mkPlatform "darwin" "amd64")) = Ok dDarwin.
Proof.
  split; [by exists (mkPlatform "linux" "amd64")|].
  split; [by exists (mkPlatform "windows" "amd64")|].
  split; [by intros (q & [= <-] & Hos & _)|]. split; [reflexivity|].
  intros tieBreak Hpick.
  change (@Ok Error Descriptor (tieBreak dDarwin []) = Ok dDarwin). f_equal.
  specialize (Hpick dDarwin []). by apply list_elem_of_singleton in Hpick.
Qed.

End Descriptor.
